(** * Chunked audio transcription: a shallow embedding

    This development embeds the transcription pipeline of
    [src/services/media_service.py] (class [MediaService]) and the remote
    client of [src/clients/openrouter_api.py] (class [OpenRouterAPI]).

    - What the external tools answer (the file system's sizes, [ffprobe],
      [ffmpeg], the HTTP endpoint, [os.remove], [shutil.rmtree]) is fixed by
      a [World]: one answer per path, so a pipeline run is a function.
    - What a run creates on disk (segment files, temporary directories) and
      the external calls it issues are threaded through a [Sys] state.
    - Python's [Optional[str]] is [option string]; [if text:] is [truthy].
    - The recursion of [_transcribe_with_ffmpeg_chunking] through its inner
      task is written with fuel; [MediaService.transcribe_audio] supplies
      enough of it (see [chunking_total]).
    - [asyncio.gather] runs the per-chunk tasks in an order chosen by an
      arbitrary [Scheduler] and hands the results back by task position.
    - The semaphore discipline of the tasks is a step relation of its own
      (module [Semaphore]). *)

From Stdlib Require Import Strings.String Strings.Ascii.
From Stdlib Require Import List ZArith QArith Bool Lia Arith PeanoNat.
From Stdlib Require Import Sorting.Permutation.
Import ListNotations.

Local Open Scope nat_scope.

(** ** Paths

    [Upload name] is the audio file handed to the pipeline.  [Segment p k]
    is entry [k] of the sorted listing of the temporary directory that
    [tempfile.mkdtemp] created when [p] was split ([chunk_000], [chunk_001],
    ... in the order of [sorted]).  That directory is fresh for every split,
    so it is identified by the file it was made for. *)

Inductive path : Type :=
| Upload (name : string)
| Segment (parent : path) (k : nat).

Fixpoint path_eqb (p q : path) : bool :=
  match p, q with
  | Upload a, Upload b => String.eqb a b
  | Segment p' i, Segment q' j => Nat.eqb i j && path_eqb p' q'
  | _, _ => false
  end.

Definition in_dir (d : path) (f : path) : bool :=
  match f with
  | Upload _ => false
  | Segment p _ => path_eqb p d
  end.

(** ** Answers of the external world *)

(** [subprocess.run(['ffprobe', ...], timeout=10)] followed by
    [float(result.stdout.strip())]. *)
Inductive ProbeOutcome : Type :=
| ProbeExit (returncode : Z)        (* a non-zero return code is a failure *)
| ProbeDuration (duration : Q)      (* return code 0, stdout parsed *)
| ProbeRaises.                      (* timeout, or stdout is not a float *)

(** [subprocess.run(['ffmpeg', ... '-f', 'segment', ...], timeout=300)]:
    how many segment files were written, and how the process ended. *)
Inductive SegOutcome : Type :=
| SegExit (returncode : Z) (written : nat)
| SegRaises (written : nat).        (* subprocess.TimeoutExpired *)

Inductive Codec : Type := StreamCopy | ReEncode.

(** [requests.post(...)]: a response with its status code and the
    [choices[0].message.content] of its JSON body ([None] when reading it
    raises), or an exception (time-out, connection error). *)
Inductive HttpOutcome : Type :=
| Response (status_code : Z) (content : option string)
| RequestRaises.

Record World : Type := {
  MAX_FILE_SIZE_MB : Z;                       (* src/config.py, default 10 *)
  _check_ffmpeg : bool;
  getsize : path -> option Z;                 (* bytes; None: OSError *)
  ffprobe : path -> ProbeOutcome;
  ffmpeg_segment : Codec -> path -> Q -> SegOutcome;
  post : path -> HttpOutcome;                 (* the file's content, posted *)
  remove_ok : path -> bool;                   (* os.remove succeeds *)
  rmtree_ok : path -> bool                    (* shutil.rmtree succeeds *)
}.

(** ** The state a run threads *)

Inductive event : Type :=
| EvProbe (p : path)
| EvMkdtemp (p : path)
| EvSegment (c : Codec) (p : path)
| EvRemote (p : path)
| EvRemove (p : path)
| EvRmtree (p : path).

Record Sys : Type := {
  files : list path;      (* segment files on disk *)
  dirs : list path;       (* temporary directories on disk, by split file *)
  trace : list event      (* external calls issued so far, oldest first *)
}.

Definition empty_sys : Sys := {| files := []; dirs := []; trace := [] |}.

Definition mem (p : path) (l : list path) : bool := existsb (path_eqb p) l.

Definition add (p : path) (l : list path) : list path :=
  if mem p l then l else l ++ [p].

Definition drop (p : path) (l : list path) : list path :=
  filter (fun q => negb (path_eqb q p)) l.

(** ** A state monad with fuel exhaustion *)

Definition M (A : Type) : Type := Sys -> option (A * Sys).

Definition ret {A} (a : A) : M A := fun s => Some (a, s).

Definition bind {A B} (m : M A) (f : A -> M B) : M B :=
  fun s => match m s with
           | Some (a, s') => f a s'
           | None => None
           end.

Definition out_of_fuel {A} : M A := fun _ => None.

Declare Scope run_scope.
Delimit Scope run_scope with run.
Notation "x <- m ;; k" := (bind m (fun x => k))
  (at level 61, m at next level, right associativity) : run_scope.
Notation "m ;;; k" := (bind m (fun _ => k))
  (at level 61, right associativity) : run_scope.
Local Open Scope run_scope.

Definition emit (e : event) : M unit :=
  fun s => Some (tt, {| files := files s; dirs := dirs s;
                        trace := trace s ++ [e] |}).

Definition exists_file (p : path) : M bool := fun s => Some (mem p (files s), s).
Definition exists_dir (p : path) : M bool := fun s => Some (mem p (dirs s), s).

Definition set_files (f : list path -> list path) : M unit :=
  fun s => Some (tt, {| files := f (files s); dirs := dirs s; trace := trace s |}).

Definition set_dirs (f : list path -> list path) : M unit :=
  fun s => Some (tt, {| files := files s; dirs := f (dirs s); trace := trace s |}).

(** ** Python values *)

Definition truthy (text : option string) : bool :=
  match text with
  | Some EmptyString => false
  | Some _ => true
  | None => false
  end.

(** File sizes: [os.path.getsize(p) / (1024 * 1024)].  Dividing an integer
    byte count by a power of two is exact in binary floating point, and no
    byte count lies between the decimal 0.01 MB and its nearest double, so
    the three comparisons of the source on sizes are the rational ones. *)
Definition mb (bytes : Z) : Q := bytes # 1048576.

Definition Qlt_bool (x y : Q) : bool := negb (Qle_bool y x).

Definition newline : ascii := "010"%char.
Definition blank_line : string := String newline (String newline EmptyString).

(** ** [OpenRouterAPI] *)

Module OpenRouterAPI.

(** [transcribe_audio(audio_base64, timeout=120)], as a function of what
    [requests.post] answered. *)
Definition transcribe_audio (r : HttpOutcome) : option string :=
  match r with
  | RequestRaises => None
  | Response status_code content =>
      if (status_code =? 200)%Z then content
      else if (status_code =? 413)%Z then None
      else None
  end.

End OpenRouterAPI.

(** ** [asyncio.gather]

    The tasks of one [gather] finish in an order the event loop decides.
    A scheduler is an arbitrary sequence of choices: at step [j], with [n]
    tasks still pending, task number [choice j mod n] of the pending ones
    runs to completion next.  Every task is run exactly once whatever the
    choices are, and every order of completion is the outcome of some
    choices.  [gather] hands the results back in the order of its
    arguments. *)

Inductive gathered (A : Type) : Type :=
| Returned (a : A)
| Raised.                 (* return_exceptions=True: an exception object *)
Arguments Returned {A} a.
Arguments Raised {A}.

Fixpoint take_out {A} (k : nat) (l : list A) : option (A * list A) :=
  match l with
  | [] => None
  | x :: t =>
      match k with
      | 0 => Some (x, t)
      | S k' => match take_out k' t with
                | Some (y, t') => Some (y, x :: t')
                | None => None
                end
      end
  end.

Fixpoint run_pending {A} (n : nat) (choice : nat -> nat) (j : nat)
    (pending : list (nat * M A)) : M (list (nat * A)) :=
  match n with
  | 0 => ret []
  | S n' =>
      match take_out (choice j mod length pending) pending with
      | None => ret []
      | Some ((i, task), rest) =>
          r <- task ;;
          completed <- run_pending n' choice (S j) rest ;;
          ret ((i, r) :: completed)
      end
  end.

Fixpoint result_of {A} (i : nat) (completed : list (nat * A)) : list A :=
  match completed with
  | [] => []
  | (j, r) :: rest => if Nat.eqb i j then [r] else result_of i rest
  end.

Definition gather {A} (choice : nat -> nat) (tasks : list (M A)) : M (list A) :=
  completed <- run_pending (length tasks) choice 0
                 (combine (seq 0 (length tasks)) tasks) ;;
  ret (flat_map (fun i => result_of i completed) (seq 0 (length tasks))).

(** One choice sequence per [gather], named by the file being split. *)
Definition Scheduler : Type := path -> nat -> nat.

(** ** [MediaService] *)

Module MediaService.

Definition MAX_RECURSION : nat := 3.
Definition MAX_CONCURRENT_TRANSCRIPTIONS : nat := 5.
Definition MIN_CHUNK_DURATION : Q := 30.
Definition safety_margin : Q := 85 # 100.
Definition small_chunk_mb : Q := 1 # 100.        (* 0.01 *)
Definition strict_threshold_mb : Q := 95 # 10.   (* 9.5 *)

Section WithWorld.

Variable W : World.

(** [_transcribe_single_audio(audio_path)].  Reading the file succeeds when
    [os.path.getsize] did; every exception ends in [return None]. *)
Definition _transcribe_single_audio (audio_path : path) : M (option string) :=
  match getsize W audio_path with
  | None => ret None
  | Some _ =>
      emit (EvRemote audio_path) ;;;
      let result := OpenRouterAPI.transcribe_audio (post W audio_path) in
      if truthy result then ret result
      else match result with
           | None => ret None        (* elif result is None: *)
           | Some _ => ret None      (* else: *)
           end
  end.

(** [shutil.rmtree(temp_dir)] inside [try ... except Exception]. *)
Definition rmtree (d : path) : M unit :=
  emit (EvRmtree d) ;;;
  if rmtree_ok W d
  then set_files (filter (fun f => negb (in_dir d f))) ;;; set_dirs (drop d)
  else ret tt.

(** The handler of the outer [except Exception] once [temp_dir] is bound:
    [if 'temp_dir' in locals() and os.path.exists(temp_dir): rmtree]. *)
Definition cleanup_after_error (d : path) : M unit :=
  e <- exists_dir d ;;
  if e then rmtree d else ret tt.

Definition written (o : SegOutcome) : nat :=
  match o with
  | SegExit _ n => n
  | SegRaises n => n
  end.

Definition write_segments (p : path) (n : nat) : M unit :=
  set_files (fun l => fold_left (fun acc k => add (Segment p k) acc) (seq 0 n) l).

(** One [ffmpeg -f segment] pass; [None] when [subprocess.run] raises. *)
Definition run_segment (c : Codec) (p : path) (chunk_duration : Q) : M (option Z) :=
  emit (EvSegment c p) ;;;
  match ffmpeg_segment W c p chunk_duration with
  | SegExit returncode n => write_segments p n ;;; ret (Some returncode)
  | SegRaises n => write_segments p n ;;; ret None
  end.

(** [sorted(os.listdir(temp_dir))] filtered on the [chunk_] pattern.  The
    directory is fresh, so it lists what the ffmpeg passes wrote: the
    second pass, when it ran, overwrote the names of the first. *)
Definition list_chunks (p : path) (chunk_duration : Q) (second_pass : bool)
  : list path :=
  let n1 := written (ffmpeg_segment W StreamCopy p chunk_duration) in
  let n := if second_pass
           then Nat.max n1 (written (ffmpeg_segment W ReEncode p chunk_duration))
           else n1 in
  map (Segment p) (seq 0 n).

Definition is_some {A} (o : option A) : bool :=
  match o with Some _ => true | None => false end.

(** The first half of [_transcribe_with_ffmpeg_chunking], up to the chunk
    list: depth ceiling, ffmpeg check, size, probe, chunk duration,
    temporary directory, segment pass (stream copy, then re-encode), listing
    and the size log.  [None] is each [return None] of that half, and the
    outer [except Exception] handler for what raises in it.  The chunk
    duration is computed in exact rationals where Python rounds to doubles;
    it only decides the [MIN_CHUNK_DURATION] test and what ffmpeg is asked
    for. *)
Definition split_audio (audio_path : path) (max_chunk_size_mb : Q)
    (recursion_depth : nat) : M (option (list path)) :=
  if MAX_RECURSION <=? recursion_depth then ret None
  else if negb (_check_ffmpeg W) then ret None
  else
    match getsize W audio_path with
    | None => ret None                 (* raises; temp_dir is not bound yet *)
    | Some bytes =>
        let file_size_mb := mb bytes in
        emit (EvProbe audio_path) ;;;
        match ffprobe W audio_path with
        | ProbeExit _ => ret None
        | ProbeRaises => ret None
        | ProbeDuration duration =>
            if (bytes =? 0)%Z then ret None     (* ZeroDivisionError *)
            else
              let target_chunk_size_mb := (max_chunk_size_mb * safety_margin)%Q in
              let chunk_duration :=
                ((target_chunk_size_mb / file_size_mb) * duration)%Q in
              if Qlt_bool chunk_duration MIN_CHUNK_DURATION then ret None
              else
                emit (EvMkdtemp audio_path) ;;;
                set_dirs (add audio_path) ;;;
                r1 <- run_segment StreamCopy audio_path chunk_duration ;;
                match r1 with
                | None => cleanup_after_error audio_path ;;; ret None
                | Some rc1 =>
                    let second_pass := negb (rc1 =? 0)%Z in
                    r2 <- (if second_pass
                           then run_segment ReEncode audio_path chunk_duration
                           else ret (Some rc1)) ;;
                    match r2 with
                    | None => cleanup_after_error audio_path ;;; ret None
                    | Some returncode =>
                        if negb (returncode =? 0)%Z then ret None
                        else
                          let chunk_paths :=
                            list_chunks audio_path chunk_duration second_pass in
                          match chunk_paths with
                          | [] => ret None
                          | _ :: _ =>
                              if forallb (fun c => is_some (getsize W c)) chunk_paths
                              then ret (Some chunk_paths)
                              else cleanup_after_error audio_path ;;; ret None
                          end
                    end
                end
        end
    end.

(** The [finally] clause of a chunk task. *)
Definition remove_chunk (chunk_path : path) : M unit :=
  e <- exists_file chunk_path ;;
  if e
  then if remove_ok W chunk_path
       then emit (EvRemove chunk_path) ;;; set_files (drop chunk_path)
       else emit (EvRemove chunk_path)
  else ret tt.

(** The inner coroutine [transcribe_chunk_with_limit(chunk_index,
    chunk_path)]; [chunk_index] only appears in its log lines.  [recurse] is
    the enclosing method.  The [async with semaphore] around the body is
    the subject of module [Semaphore]. *)
Definition transcribe_chunk_with_limit
    (recurse : path -> Q -> nat -> M (option string))
    (max_chunk_size_mb : Q) (recursion_depth : nat) (chunk_path : path)
  : M (gathered (option string)) :=
  r <- match getsize W chunk_path with
       | None => ret None                          (* except Exception *)
       | Some bytes =>
           let chunk_size_mb := mb bytes in
           if Qlt_bool chunk_size_mb small_chunk_mb then ret None
           else
             text <- (if Qlt_bool strict_threshold_mb chunk_size_mb
                      then recurse chunk_path max_chunk_size_mb (recursion_depth + 1)
                      else _transcribe_single_audio chunk_path) ;;
             if truthy text then ret text else ret None
       end ;;
  remove_chunk chunk_path ;;;
  ret (Returned r).

(** The loop that filters the gathered results. *)
Definition keep (transcriptions : list string) (result : gathered (option string))
  : list string :=
  match result with
  | Raised => transcriptions
  | Returned r =>
      if truthy r
      then match r with
           | Some text => transcriptions ++ [text]
           | None => transcriptions
           end
      else transcriptions
  end.

Definition merge (results : list (gathered (option string))) : option string :=
  match fold_left keep results [] with
  | [] => None
  | transcriptions => Some (String.concat blank_line transcriptions)
  end.

Fixpoint _transcribe_with_ffmpeg_chunking (fuel : nat) (sched : Scheduler)
    (audio_path : path) (max_chunk_size_mb : Q) (recursion_depth : nat)
    {struct fuel} : M (option string) :=
  match fuel with
  | 0 => out_of_fuel
  | S fuel' =>
      plan <- split_audio audio_path max_chunk_size_mb recursion_depth ;;
      match plan with
      | None => ret None
      | Some chunk_paths =>
          let tasks :=
            map (transcribe_chunk_with_limit
                   (_transcribe_with_ffmpeg_chunking fuel' sched)
                   max_chunk_size_mb recursion_depth) chunk_paths in
          results <- gather (sched audio_path) tasks ;;
          rmtree audio_path ;;;
          ret (merge results)
      end
  end.

(** [transcribe_audio(audio_path)], the entry point. *)
Definition transcribe_audio (sched : Scheduler) (audio_path : path)
  : M (option string) :=
  match getsize W audio_path with
  | None => ret None
  | Some bytes =>
      let file_size_mb := mb bytes in
      if Qle_bool file_size_mb (inject_Z (MAX_FILE_SIZE_MB W))
      then _transcribe_single_audio audio_path
      else _transcribe_with_ffmpeg_chunking (S MAX_RECURSION) sched audio_path
             (inject_Z (MAX_FILE_SIZE_MB W)) 0
  end.

End WithWorld.

End MediaService.

(** ** The semaphore of one invocation

    [semaphore = asyncio.Semaphore(MAX_CONCURRENT_TRANSCRIPTIONS)] is created
    once per invocation of [_transcribe_with_ffmpeg_chunking], and every
    task's body sits inside [async with semaphore:].  The tasks of that
    invocation are interleaved freely here: a remote call takes time
    ([Call] ... [Answer]) and other tasks may move meanwhile.  The event
    loop of the source allows fewer interleavings than these. *)

Module Semaphore.

Inductive pc : Type :=
| Waiting       (* created, not yet inside [async with semaphore] *)
| Holding       (* inside the block, no remote call in flight *)
| Calling       (* inside the block, [self.api.transcribe_audio] in flight *)
| Finished.     (* left the block *)

Record state : Type := {
  value : nat;            (* the semaphore's counter *)
  tasks : list pc
}.

Inductive action : Type :=
| Acquire (i : nat)       (* __aenter__ returns *)
| Call (i : nat)          (* the task issues its remote call *)
| Answer (i : nat)        (* the remote call returns *)
| Release (i : nat).      (* __aexit__ *)

Definition init (n : nat) : state :=
  {| value := MediaService.MAX_CONCURRENT_TRANSCRIPTIONS;
     tasks := repeat Waiting n |}.

Fixpoint update (i : nat) (x : pc) (l : list pc) : list pc :=
  match l, i with
  | [], _ => []
  | _ :: t, 0 => x :: t
  | y :: t, S i' => y :: update i' x t
  end.

Definition pc_eqb (a b : pc) : bool :=
  match a, b with
  | Waiting, Waiting | Holding, Holding | Calling, Calling
  | Finished, Finished => true
  | _, _ => false
  end.

Definition at_pc (s : state) (i : nat) (p : pc) : bool :=
  match nth_error (tasks s) i with
  | Some q => pc_eqb q p
  | None => false
  end.

Definition step (a : action) (s : state) : option state :=
  match a with
  | Acquire i =>
      if at_pc s i Waiting
      then match value s with
           | 0 => None                                  (* blocked *)
           | S v => Some {| value := v; tasks := update i Holding (tasks s) |}
           end
      else None
  | Call i =>
      if at_pc s i Holding
      then Some {| value := value s; tasks := update i Calling (tasks s) |}
      else None
  | Answer i =>
      if at_pc s i Calling
      then Some {| value := value s; tasks := update i Holding (tasks s) |}
      else None
  | Release i =>
      if at_pc s i Holding
      then Some {| value := S (value s); tasks := update i Finished (tasks s) |}
      else None
  end.

Fixpoint run (acts : list action) (s : state) : option state :=
  match acts with
  | [] => Some s
  | a :: rest => match step a s with
                 | Some s' => run rest s'
                 | None => None
                 end
  end.

Definition inside (p : pc) : nat :=
  match p with
  | Holding | Calling => 1
  | _ => 0
  end.


Definition holders (s : state) : nat := list_sum (map inside (tasks s)).


End Semaphore.

(** * Vocabulary of the statements *)

(** [yields m v]: from every state, [m] terminates with value [v]. *)
Definition yields {A} (m : M A) (v : A) : Prop :=
  forall s, exists s', m s = Some (v, s').

(** [settled m]: [m] terminates from every state, always with the same
    value. *)
Definition settled {A} (m : M A) : Prop := exists v, yields m v.


(** The task the invocation on a file at [depth], run with [S fuel], creates
    for one of its chunks. *)
Definition chunk_task (W : World) (fuel : nat) (sched : Scheduler)
    (max_chunk_size_mb : Q) (depth : nat) (c : path)
  : M (gathered (option string)) :=
  MediaService.transcribe_chunk_with_limit W
    (MediaService._transcribe_with_ffmpeg_chunking W fuel sched)
    max_chunk_size_mb depth c.

(** The texts of the chunks that were transcribed, in the order given. *)
Definition successful_texts (outcomes : list (option string)) : list string :=
  flat_map (fun t => match t with
                     | Some (String a r) => [String a r]
                     | _ => []
                     end) outcomes.

(** The merged transcript of a list of per-chunk outcomes: the successful
    texts separated by blank lines, or a failure when there is none. *)
Definition joined (outcomes : list (option string)) : option string :=
  match successful_texts outcomes with
  | [] => None
  | texts => Some (String.concat blank_line texts)
  end.

(** The value a computation returns when started on an empty disk. *)
Definition value {A} (m : M A) : option A :=
  match m empty_sys with
  | Some (a, _) => Some a
  | None => None
  end.

(** A chunk task around a given transcription step: the filter on the text,
    the [finally] clause, the return. *)
Definition chunk_task_via (W : World) (transcription : M (option string))
    (c : path) : M (gathered (option string)) :=
  (r <- (text <- transcription ;;
         if truthy text then ret text else ret None) ;;
   MediaService.remove_chunk W c ;;;
   ret (Returned r))%run.

(** What the state becomes once the events [evs] have been issued and
    nothing on disk has changed. *)
Definition logged (s : Sys) (evs : list event) : Sys :=
  {| files := files s; dirs := dirs s; trace := trace s ++ evs |}.

(** ** Example worlds *)

Definition talk : path := Upload "talk.m4a".

Definition example_world (size : path -> option Z) (probe : ProbeOutcome)
    (copy reencode : SegOutcome) (answer : path -> HttpOutcome) : World :=
  {| MAX_FILE_SIZE_MB := 10;
     _check_ffmpeg := true;
     getsize := size;
     ffprobe := fun _ => probe;
     ffmpeg_segment := fun c _ _ =>
       match c with StreamCopy => copy | ReEncode => reencode end;
     post := answer;
     remove_ok := fun _ => true;
     rmtree_ok := fun _ => true |}.

(** A 30 MB upload whose segments have [segment_bytes] each. *)
Definition sizes (segment_bytes : Z) (p : path) : option Z :=
  match p with
  | Upload _ => Some 31457280%Z
  | Segment _ _ => Some segment_bytes
  end.

Definition numbered_answers (p : path) : HttpOutcome :=
  match p with
  | Segment _ 0 => Response 200 (Some "one"%string)
  | Segment _ 1 => Response 200 (Some "two"%string)
  | Segment _ _ => Response 200 (Some "three"%string)
  | Upload _ => RequestRaises
  end.

(** Three segments of 8 MB, all transcribed. *)
Definition three_chunks : World :=
  example_world (sizes 8000000) (ProbeDuration 600)
    (SegExit 0 3) (SegExit 0 3) numbered_answers.

(** The same, with the middle segment rejected by the endpoint. *)
Definition middle_fails : World :=
  example_world (sizes 8000000) (ProbeDuration 600) (SegExit 0 3) (SegExit 0 3)
    (fun p => match p with
              | Segment _ 1 => Response 500 None
              | _ => numbered_answers p
              end).

(** The same, with every remote call failing. *)
Definition all_fail : World :=
  example_world (sizes 8000000) (ProbeDuration 600) (SegExit 0 3) (SegExit 0 3)
    (fun _ => Response 500 None).

(** Both ffmpeg passes exit with an error after writing one segment. *)
Definition ffmpeg_fails : World :=
  example_world (sizes 8000000) (ProbeDuration 600)
    (SegExit 1 1) (SegExit 1 1) numbered_answers.

(** ffmpeg exits normally and writes no segment. *)
Definition no_segments : World :=
  example_world (sizes 8000000) (ProbeDuration 600)
    (SegExit 0 0) (SegExit 0 0) numbered_answers.

(** ffmpeg times out after writing one segment. *)
Definition ffmpeg_times_out : World :=
  example_world (sizes 8000000) (ProbeDuration 600)
    (SegRaises 1) (SegRaises 1) numbered_answers.

(** [three_chunks] with a failing probe. *)
Definition probe_fails : World :=
  example_world (sizes 8000000) (ProbeExit 1)
    (SegExit 0 3) (SegExit 0 3) numbered_answers.

(** Two segments of 100 bytes each. *)
Definition tiny_chunks : World :=
  example_world (sizes 100) (ProbeDuration 600)
    (SegExit 0 2) (SegExit 0 2) numbered_answers.

(** Every split writes a first segment of 10 MB and a second of 8 MB. *)
Definition always_oversized : World :=
  example_world
    (fun p => match p with
              | Upload _ => Some 31457280%Z
              | Segment _ 0 => Some 10485760%Z
              | Segment _ _ => Some 8000000%Z
              end)
    (ProbeDuration 600) (SegExit 0 2) (SegExit 0 2)
    (fun _ => Response 200 (Some "text"%string)).

(** A 5 MB upload that the endpoint rejects as too large. *)
Definition small_rejected : World :=
  example_world (fun _ => Some 5242880%Z) (ProbeDuration 600)
    (SegExit 0 3) (SegExit 0 3) (fun _ => Response 413 None).

Definition in_order : Scheduler := fun _ _ => 0.
Definition last_first : Scheduler := fun _ j => 2 - j.

(** A segment of exactly 9.5 MB, and one byte more. *)
Definition at_threshold : World :=
  example_world (sizes 9961472) (ProbeDuration 600)
    (SegExit 0 3) (SegExit 0 3) numbered_answers.

Definition above_threshold : World :=
  example_world (sizes 9961473) (ProbeDuration 600)
    (SegExit 0 3) (SegExit 0 3) numbered_answers.

(** ** Statements that the code does not satisfy *)

(** A chunk is near-empty when it is smaller than 0.01 MB. *)
Definition near_empty (W : World) (c : path) : Prop :=
  exists bytes, getsize W c = Some bytes /\
                (mb bytes < MediaService.small_chunk_mb)%Q.

(** "A skipped chunk is an empty success, not a failed chunk": a plan of
    skipped chunks only would then not end in the failure of a plan whose
    chunks all failed. *)
Definition skipped_chunks_are_successes : Prop :=
  forall W fuel sched p max depth cs,
    yields (MediaService.split_audio W p max depth) (Some cs) ->
    Forall (near_empty W) cs ->
    ~ yields (MediaService._transcribe_with_ffmpeg_chunking W (S fuel) sched
                p max depth) None.

(** "The 413 failure can be told apart from every other failure." *)
Definition too_large_is_told_apart : Prop :=
  forall content status content',
    status <> 200%Z -> status <> 413%Z ->
    OpenRouterAPI.transcribe_audio (Response 413 content) <>
    OpenRouterAPI.transcribe_audio (Response status content') /\
    OpenRouterAPI.transcribe_audio (Response 413 content) <>
    OpenRouterAPI.transcribe_audio RequestRaises.

Definition with_probe (W : World) (probe : path -> ProbeOutcome) : World :=
  {| MAX_FILE_SIZE_MB := MAX_FILE_SIZE_MB W;
     _check_ffmpeg := _check_ffmpeg W;
     getsize := getsize W;
     ffprobe := probe;
     ffmpeg_segment := ffmpeg_segment W;
     post := post W;
     remove_ok := remove_ok W;
     rmtree_ok := rmtree_ok W |}.

Definition probe_failure (o : ProbeOutcome) : Prop :=
  o = ProbeRaises \/ exists returncode, o = ProbeExit returncode.

(** "A failing probe does not fail the pipeline": on the chunked path, a run
    that fails while the probe fails is a run that fails as well when the
    probe answers. *)
Definition probe_failure_is_harmless : Prop :=
  forall W sched p bytes duration failure,
    getsize W p = Some bytes ->
    (inject_Z (MAX_FILE_SIZE_MB W) < mb bytes)%Q ->
    ffprobe W p = ProbeDuration duration ->
    probe_failure failure ->
    value (MediaService.transcribe_audio (with_probe W (fun _ => failure)) sched p)
    = Some None ->
    value (MediaService.transcribe_audio W sched p) = Some None.



Definition busy_state : Semaphore.state :=
  {| Semaphore.value := 0;
     Semaphore.tasks :=
       [Semaphore.Finished; Semaphore.Calling; Semaphore.Calling;
        Semaphore.Calling; Semaphore.Calling; Semaphore.Calling;
        Semaphore.Waiting] |}.

(** * Vocabulary for what a run does to the disk and to the trace *)

(** How many temporary directories lie between a file and its upload. *)
Fixpoint level (p : path) : nat :=
  match p with
  | Upload _ => 0
  | Segment q _ => S (level q)
  end.

(** [descends f q]: [f] is [q], or a segment of [q], or a segment of one of
    those, and so on. *)
Fixpoint descends (f q : path) : bool :=
  path_eqb f q ||
  match f with
  | Upload _ => false
  | Segment f' _ => descends f' q
  end.

Definition strictly_below (q f : path) : bool :=
  match f with
  | Upload _ => false
  | Segment f' _ => descends f' q
  end.

(** [m] relates every state it starts from to the state it ends in. *)
Definition preserves {A} (R : Sys -> Sys -> Prop) (m : M A) : Prop :=
  forall s a s', m s = Some (a, s') -> R s s'.

(** The trace grew by events that all satisfy [P]. *)
Definition appends (P : event -> Prop) (s s' : Sys) : Prop :=
  exists evs, trace s' = trace s ++ evs /\ Forall P evs.

(** Whatever is on disk afterwards was there before, or is a file in [F],
    or a directory in [D]. *)
Definition keeps_disk (F D : path -> Prop) (s s' : Sys) : Prop :=
  (forall f, In f (files s') -> In f (files s) \/ F f) /\
  (forall d, In d (dirs s') -> In d (dirs s) \/ D d).

Definition moves (P : event -> Prop) (F D : path -> Prop) (s s' : Sys) : Prop :=
  appends P s s' /\ keeps_disk F D s s'.

Definition nothing : path -> Prop := fun _ => False.

(** The two returns of the split that come after [tempfile.mkdtemp] and do
    not pass through [shutil.rmtree]: the last ffmpeg pass ended with a
    non-zero return code, or no segment was listed. *)
Definition returns_without_cleanup (W : World) (p : path) (chunk_duration : Q)
  : bool :=
  match ffmpeg_segment W StreamCopy p chunk_duration with
  | SegRaises _ => false
  | SegExit rc1 n1 =>
      if (rc1 =? 0)%Z then Nat.eqb n1 0
      else match ffmpeg_segment W ReEncode p chunk_duration with
           | SegRaises _ => false
           | SegExit rc2 n2 => negb (rc2 =? 0)%Z || Nat.eqb (Nat.max n1 n2) 0
           end
  end.

(** What the events of a run started on [p] at [depth] may be: probes,
    directories, segment passes and removals for files at or below [p] that
    lie fewer than [MAX_RECURSION - depth] levels below it, remote calls
    for segments of such files, of a size from 0.01 MB to 9.5 MB. *)
Definition within_depth (p : path) (depth : nat) (q : path) : Prop :=
  descends q p = true /\ level q + depth < MediaService.MAX_RECURSION + level p.

Definition chunked_event (W : World) (p : path) (depth : nat) (ev : event)
  : Prop :=
  match ev with
  | EvProbe q | EvMkdtemp q | EvSegment _ q | EvRmtree q => within_depth p depth q
  | EvRemove c =>
      exists q k, c = Segment q k /\ within_depth p depth q
  | EvRemote c =>
      exists q k bytes,
        c = Segment q k /\ within_depth p depth q /\
        getsize W c = Some bytes /\
        (MediaService.small_chunk_mb <= mb bytes)%Q /\
        (mb bytes <= MediaService.strict_threshold_mb)%Q
  end.

(** What the events of [transcribe_audio] on [p] may be: one remote call for
    [p] itself, of at most [MAX_FILE_SIZE_MB], or the events of a chunked
    run started at depth 0. *)
Definition pipeline_event (W : World) (p : path) (ev : event) : Prop :=
  (exists bytes, ev = EvRemote p /\ getsize W p = Some bytes /\
                 (mb bytes <= inject_Z (MAX_FILE_SIZE_MB W))%Q) \/
  chunked_event W p 0 ev.

(** Every value [m] returns satisfies [Q]. *)
Definition returns {A} (Q : A -> Prop) (m : M A) : Prop :=
  forall s a s', m s = Some (a, s') -> Q a.

(** A plan is a failure, or the segments [0 .. n-1] of the split file for
    some [n > 0], found below the depth ceiling. *)
Definition plan_of (p : path) (depth : nat) (plan : option (list path)) : Prop :=
  match plan with
  | None => True
  | Some cs =>
      depth < MediaService.MAX_RECURSION /\
      exists n, 0 < n /\ cs = map (Segment p) (seq 0 n)
  end.

(** States after one step. *)
Definition with_dir (p : path) (s : Sys) : Sys :=
  {| files := files s; dirs := add p (dirs s); trace := trace s |}.

Definition with_segments (p : path) (n : nat) (s : Sys) : Sys :=
  {| files := fold_left (fun acc k => add (Segment p k) acc) (seq 0 n) (files s);
     dirs := dirs s;
     trace := trace s |}.

Definition without_tree (d : path) (s : Sys) : Sys :=
  {| files := filter (fun f => negb (in_dir d f)) (files s);
     dirs := drop d (dirs s);
     trace := trace s |}.

Definition exit_code (o : SegOutcome) : option Z :=
  match o with
  | SegExit returncode _ => Some returncode
  | SegRaises _ => None
  end.

(** The state a computation ends in. *)
Definition after {A} (m : M A) (s : Sys) : Sys :=
  match m s with
  | Some (_, s') => s'
  | None => s
  end.

(** [middle_fails] on a machine where [shutil.rmtree] always fails. *)
Definition rmtree_fails : World :=
  {| MAX_FILE_SIZE_MB := MAX_FILE_SIZE_MB middle_fails;
     _check_ffmpeg := _check_ffmpeg middle_fails;
     getsize := getsize middle_fails;
     ffprobe := ffprobe middle_fails;
     ffmpeg_segment := ffmpeg_segment middle_fails;
     post := post middle_fails;
     remove_ok := fun _ => true;
     rmtree_ok := fun _ => false |}.

(** * Text helpers of the callers

    A Python [str] is a sequence of code points and [len] counts them, so
    the functions whose behaviour depends on lengths are written over lists
    of an arbitrary type of characters. *)

(** [l[:k]] for an integer [k], negative or not. *)
Definition py_prefix {A} (k : Z) (l : list A) : list A :=
  if (0 <=? k)%Z then firstn (Z.to_nat k) l
  else firstn (length l - Z.to_nat (- k)) l.

(** ** [src/utils/formatters.py] *)

Module Formatters.

Section Text.

Variable char : Type.
Variable dot : char.                       (* '.' *)

(** [truncate_with_ellipsis(text, max_len)] *)
Definition truncate_with_ellipsis (text : list char) (max_len : Z) : list char :=
  if (Z.of_nat (length text) <=? max_len)%Z then text
  else py_prefix (max_len - 3) text ++ [dot; dot; dot].

End Text.

End Formatters.

(** ** [src/utils/schemas.py] and [src/services/ai_service.py] *)

Module AIService.

Section Text.

Variable char : Type.
Variable isspace : char -> bool.           (* str.isspace on one character *)
Variables space dot : char.                (* ' ' and '.' *)

(** [text.split()]: the maximal runs of characters that are not white
    space; [word] is the run being read. *)
Fixpoint split_from (word : list char) (text : list char) : list (list char) :=
  match text with
  | [] => match word with
          | [] => []
          | _ => [word]
          end
  | c :: rest =>
      if isspace c
      then match word with
           | [] => split_from [] rest
           | _ => word :: split_from [] rest
           end
      else split_from (word ++ [c]) rest
  end.

Definition split (text : list char) : list (list char) := split_from [] text.

(** [" ".join(words)] *)
Fixpoint join (words : list (list char)) : list char :=
  match words with
  | [] => []
  | [w] => w
  | w :: rest => w ++ space :: join rest
  end.

(** The two fields of [ContextMetadata], as passed to its constructor. *)
Record ContextMetadata : Type := {
  title : list char;
  summary : list char
}.

(** The [Field(..., min_length=1, max_length=...)] declarations of the
    schema. *)
Definition title_max_length : nat := 35.
Definition summary_max_length : nat := 80.

Definition within (max_length : nat) (v : list char) : Prop :=
  1 <= length v <= max_length.

Definition fields_within_limits (m : ContextMetadata) : Prop :=
  within title_max_length (title m) /\ within summary_max_length (summary m).

(** [_generate_fallback_metadata(transcription)].  [default_title] is the
    value of [f"Video {datetime.now().strftime('%d/%m %H:%M')}"]. *)
Definition _generate_fallback_metadata (default_title : list char)
    (transcription : list char) : ContextMetadata :=
  let words := firstn 6 (split transcription) in
  let title := join words in
  let title := if 35 <? length title
               then firstn 32 title ++ [dot; dot; dot]
               else title in
  let first_part := firstn 77 transcription in
  let first_part := if 77 <? length transcription
                    then first_part ++ [dot; dot; dot]
                    else first_part in
  {| title := match title with
              | [] => default_title           (* title or f"Video ..." *)
              | _ => title
              end;
     summary := first_part |}.

End Text.

End AIService.

(** ** [MediaService._is_storage_url]

    The test [pattern in url] on UTF-8 bytes; the patterns are ASCII. *)

Module StorageUrl.

Fixpoint contains (pattern url : string) : bool :=
  String.prefix pattern url ||
  match url with
  | EmptyString => false
  | String _ rest => contains pattern rest
  end.

Definition supabase_pattern : string := "supabase.co/storage/v1/object/public".

Definition other_patterns : list string :=
  ["storage.googleapis.com"; "s3.amazonaws.com"; "blob.core.windows.net"]%string.

Definition _is_storage_url (url : string) : bool :=
  match url with
  | EmptyString => false                                  (* if not url *)
  | _ =>
      if contains supabase_pattern url then true
      else if existsb (fun pattern => contains pattern url) other_patterns
           then true
           else false
  end.

End StorageUrl.

(** White space of the ASCII examples. *)
Definition ascii_space (c : ascii) : bool := Ascii.eqb c " "%char.

(** * Vocabulary for counting external calls *)

(** The file or directory an event is about. *)
Definition subject (ev : event) : path :=
  match ev with
  | EvProbe p | EvMkdtemp p | EvSegment _ p | EvRemote p | EvRemove p
  | EvRmtree p => p
  end.

(** The events of a split: probe, directory, segment passes, removal of the
    directory. *)
Definition about_split (ev : event) : bool :=
  match ev with
  | EvRemote _ | EvRemove _ => false
  | _ => true
  end.

(** The events a run on [p] may issue: those of the split of [p] itself,
    and any event about a file strictly below [p]. *)
Definition own_or_below (p : path) (ev : event) : Prop :=
  (subject ev = p /\ about_split ev = true) \/
  strictly_below p (subject ev) = true.

(** [m] extends the trace by a list of events that, with the value
    returned, satisfies [Phi]. *)
Definition emits {A} (Phi : A -> list event -> Prop) (m : M A) : Prop :=
  forall s a s', m s = Some (a, s') ->
                 exists evs, trace s' = trace s ++ evs /\ Phi a evs.

(** The lists of events a split of [p] can issue, and those it issues when
    it yields a plan. *)
Definition split_events (p : path) : list (list event) :=
  [ [];
    [EvProbe p];
    [EvProbe p; EvMkdtemp p; EvSegment StreamCopy p];
    [EvProbe p; EvMkdtemp p; EvSegment StreamCopy p; EvRmtree p];
    [EvProbe p; EvMkdtemp p; EvSegment StreamCopy p; EvSegment ReEncode p];
    [EvProbe p; EvMkdtemp p; EvSegment StreamCopy p; EvSegment ReEncode p;
     EvRmtree p] ].

Definition plan_events (p : path) : list (list event) :=
  [ [EvProbe p; EvMkdtemp p; EvSegment StreamCopy p];
    [EvProbe p; EvMkdtemp p; EvSegment StreamCopy p; EvSegment ReEncode p] ].

(** No event twice, and all events about files at or below [c]. *)
Definition once_below (c : path) (evs : list event) : Prop :=
  NoDup evs /\ Forall (fun ev => descends (subject ev) c = true) evs.

(** No event twice, and all events among those a run on [p] may issue. *)
Definition once_within (p : path) (evs : list event) : Prop :=
  NoDup evs /\ Forall (own_or_below p) evs.
(** * Properties *)

(** ** Computations whose value does not depend on the state *)

Lemma yields_ret {A} (a : A) : yields (ret a) a.
Proof. intros s. exists s. reflexivity. Qed.

Lemma yields_bind {A B} (m : M A) (f : A -> M B) a b :
  yields m a -> yields (f a) b -> yields (bind m f) b.
Proof.
  intros Hm Hf s. unfold bind.
  destruct (Hm s) as [s1 ->]. apply Hf.
Qed.

Lemma yields_inj {A} (m : M A) a b : yields m a -> yields m b -> a = b.
Proof.
  intros Ha Hb.
  destruct (Ha empty_sys) as [s1 E1], (Hb empty_sys) as [s2 E2]. congruence.
Qed.

Lemma yields_emit e : yields (emit e) tt.
Proof. intros s. eexists. reflexivity. Qed.

Lemma yields_set_files f : yields (set_files f) tt.
Proof. intros s. eexists. reflexivity. Qed.

Lemma yields_set_dirs f : yields (set_dirs f) tt.
Proof. intros s. eexists. reflexivity. Qed.

Lemma settled_ret {A} (a : A) : settled (ret a).
Proof. exists a. apply yields_ret. Qed.

Lemma settled_bind {A B} (m : M A) (f : A -> M B) :
  settled m -> (forall a, settled (f a)) -> settled (bind m f).
Proof.
  intros [a Ha] Hf. destruct (Hf a) as [b Hb].
  exists b. eapply yields_bind; eauto.
Qed.

(** A computation that reads the state but whose continuation settles on
    one value whatever was read. *)
Lemma yields_read {B} (m : M bool) (f : bool -> M B) b :
  (forall s, exists x, m s = Some (x, s)) ->
  (forall x, yields (f x) b) -> yields (bind m f) b.
Proof.
  intros Hm Hf s. unfold bind. destruct (Hm s) as [x ->]. apply Hf.
Qed.

Create HintDb run discriminated.
#[local] Hint Resolve yields_ret yields_emit yields_set_files yields_set_dirs
  settled_ret : run.

(** ** [gather] returns the results by position *)

Lemma take_out_some {A} (l : list A) k :
  k < length l ->
  exists x rest, take_out k l = Some (x, rest) /\ Permutation l (x :: rest).
Proof.
  revert k. induction l as [|y l IH]; intros k Hk; simpl in *; [lia|].
  destruct k as [|k].
  - exists y, l. split; auto.
  - destruct (IH k) as (x & rest & E & P); [lia|].
    exists x, (y :: rest). simpl. rewrite E. split; auto.
    rewrite perm_swap. constructor. exact P.
Qed.

Lemma run_pending_yields {A} (f : nat -> A) choice n :
  forall j (pending : list (nat * M A)),
    length pending = n ->
    Forall (fun it => yields (snd it) (f (fst it))) pending ->
    exists completed,
      yields (run_pending n choice j pending) completed /\
      Permutation (map fst completed) (map fst pending) /\
      Forall (fun c => snd c = f (fst c)) completed.
Proof.
  induction n as [|n IH]; intros j pending Hlen Hall.
  - destruct pending; [|discriminate]. exists []. simpl.
    repeat split; auto with run.
  - assert (Hk : choice j mod length pending < length pending)
      by (apply Nat.mod_upper_bound; lia).
    destruct (take_out_some pending _ Hk) as ([i task] & rest & E & P).
    assert (Hall' : Forall (fun it => yields (snd it) (f (fst it)))
                      ((i, task) :: rest))
      by (rewrite Forall_forall in *; intros x Hx; apply Hall;
          eapply Permutation_in; [symmetry; exact P | exact Hx]).
    inversion Hall' as [|? ? Htask Hrest]; subst.
    destruct (IH (S j) rest) as (completed & Hy & Hp & Hf); auto.
    { apply Permutation_length in P. simpl in P. lia. }
    exists ((i, f i) :: completed). split; [|split].
    + simpl. rewrite E.
      eapply yields_bind; [exact Htask|].
      eapply yields_bind; [exact Hy|]. apply yields_ret.
    + simpl. rewrite (Permutation_map fst P). simpl. constructor. exact Hp.
    + constructor; auto.
Qed.

Lemma result_of_found {A} (f : nat -> A) i (completed : list (nat * A)) :
  Forall (fun c => snd c = f (fst c)) completed ->
  In i (map fst completed) ->
  result_of i completed = [f i].
Proof.
  induction completed as [|[j r] l IH]; intros Hall Hin; simpl in *.
  - contradiction.
  - inversion Hall as [|? ? Hr Hl]; subst. simpl in Hr.
    destruct (Nat.eqb_spec i j) as [->|Hne].
    + now rewrite Hr.
    + apply IH; auto. destruct Hin; [congruence|assumption].
Qed.

Lemma flat_map_singletons {A B} (g : A -> list B) (f : A -> B) l :
  (forall x, In x l -> g x = [f x]) -> flat_map g l = map f l.
Proof.
  induction l as [|x l IH]; intros H; simpl; auto.
  rewrite H by (left; reflexivity). simpl. f_equal.
  apply IH. intros; apply H. now right.
Qed.

Lemma combine_seq_yields {A} (tasks : list (M A)) (vs : list A) d :
  Forall2 yields tasks vs ->
  forall k, Forall (fun it => yields (snd it) (nth (fst it - k) vs d))
              (combine (seq k (length tasks)) tasks).
Proof.
  induction 1 as [|t v ts vs0 Htv Hrest IH]; intros k; simpl.
  - constructor.
  - constructor.
    + simpl. rewrite Nat.sub_diag. exact Htv.
    + specialize (IH (S k)).
      rewrite Forall_forall in *. intros [i t'] Hin.
      specialize (IH _ Hin). simpl in *.
      assert (k < i).
      { apply in_combine_l in Hin. apply in_seq in Hin. lia. }
      destruct (i - k) as [|m] eqn:Em; [lia|].
      replace (i - S k) with m in IH by lia. exact IH.
Qed.

Lemma map_nth_seq {A} (vs : list A) d :
  map (fun i => nth i vs d) (seq 0 (length vs)) = vs.
Proof.
  induction vs as [|v vs IH]; simpl; auto.
  f_equal. rewrite <- seq_shift, map_map. exact IH.
Qed.

Lemma map_fst_combine {A B} (l : list A) (l' : list B) :
  length l = length l' -> map fst (combine l l') = l.
Proof.
  revert l'. induction l as [|x l IH]; intros [|y l'] H; simpl in *;
    try discriminate; auto.
  f_equal. apply IH. lia.
Qed.

(** Whatever the order of completion, [gather] yields the tasks' values in
    the order the tasks were passed. *)
Lemma gather_yields {A} choice (tasks : list (M A)) (vs : list A) :
  Forall2 yields tasks vs -> yields (gather choice tasks) vs.
Proof.
  intros H.
  destruct vs as [|d vs'].
  { inversion H; subst. unfold gather. simpl.
    eapply yields_bind; apply yields_ret. }
  remember (d :: vs') as vs eqn:Evs.
  set (f := fun i => nth i vs d).
  assert (Hlen : length tasks = length vs) by (eapply Forall2_length; eauto).
  destruct (run_pending_yields f choice (length tasks) 0
              (combine (seq 0 (length tasks)) tasks))
    as (completed & Hy & Hp & Hf).
  - rewrite length_combine, length_seq. lia.
  - eapply Forall_impl; [|apply (combine_seq_yields tasks vs d H 0)].
    intros [i t]. simpl. unfold f. now rewrite Nat.sub_0_r.
  - unfold gather. eapply yields_bind; [exact Hy|].
    rewrite (flat_map_singletons _ f).
    + replace (map f (seq 0 (length tasks))) with vs; [apply yields_ret|].
      rewrite Hlen. unfold f. now rewrite map_nth_seq.
    + intros i Hi. apply result_of_found; auto.
      eapply Permutation_in; [symmetry; exact Hp|].
      rewrite map_fst_combine by (now rewrite length_seq). exact Hi.
Qed.

(** ** The steps of [MediaService] settle *)

Section Settled.

Import MediaService.

Variable W : World.

Lemma yields_rmtree d : yields (rmtree W d) tt.
Proof.
  unfold rmtree. eapply yields_bind; [apply yields_emit|].
  destruct (rmtree_ok W d); auto with run.
  eapply yields_bind; auto with run.
Qed.

Lemma yields_cleanup_after_error d : yields (cleanup_after_error W d) tt.
Proof.
  unfold cleanup_after_error. apply yields_read.
  - intros s. eexists. reflexivity.
  - intros [|]; [apply yields_rmtree | apply yields_ret].
Qed.

Lemma yields_remove_chunk c : yields (remove_chunk W c) tt.
Proof.
  unfold remove_chunk. apply yields_read.
  - intros s. eexists. reflexivity.
  - intros [|]; auto with run.
    destruct (remove_ok W c); auto with run.
    eapply yields_bind; auto with run.
Qed.

Lemma yields_write_segments p n : yields (write_segments p n) tt.
Proof. apply yields_set_files. Qed.

#[local] Hint Resolve yields_rmtree yields_cleanup_after_error
  yields_remove_chunk yields_write_segments : run.

Ltac settle :=
  repeat first
    [ apply settled_ret
    | solve [eexists; eauto with run]
    | apply settled_bind; [ | intros ? ]
    | match goal with
      | |- settled (match ?x with _ => _ end) => destruct x eqn:?
      end ].

Lemma settled_run_segment c p d : settled (run_segment W c p d).
Proof. unfold run_segment. settle. Qed.

Lemma settled_split_audio p max depth : settled (split_audio W p max depth).
Proof.
  unfold split_audio.
  pose proof settled_run_segment. settle; auto.
Qed.

Lemma settled_single p : settled (_transcribe_single_audio W p).
Proof. unfold _transcribe_single_audio. settle. Qed.

(** At the depth ceiling nothing is split and nothing is touched. *)
Lemma split_audio_ceiling p max depth s :
  MAX_RECURSION <= depth -> split_audio W p max depth s = Some (None, s).
Proof.
  intros H. unfold split_audio.
  destruct (Nat.leb_spec MAX_RECURSION depth); [reflexivity | lia].
Qed.

(** A chunk task settles on one outcome as soon as the enclosing method
    does, and that outcome is the same for every scheduler. *)
Lemma task_yields {I} (recurse : I -> path -> Q -> nat -> M (option string))
    max depth c :
  (forall q, exists v, forall i, yields (recurse i q max (depth + 1)) v) ->
  exists t, forall i,
    yields (transcribe_chunk_with_limit W (recurse i) max depth c) (Returned t).
Proof.
  intros Hrec. unfold transcribe_chunk_with_limit.
  assert (Hend : forall (m : M (option string)) t, yields m t ->
            yields (r <- m ;; remove_chunk W c ;;; ret (Returned r)) (Returned t)).
  { intros m t Hm. eapply yields_bind; [exact Hm|].
    eapply yields_bind; auto with run. }
  assert (Htext : forall (m : M (option string)) v, yields m v ->
            yields (text <- m ;; (if truthy text then ret text else ret None))
                   (if truthy v then v else None)).
  { intros m v Hm. eapply yields_bind; [exact Hm|].
    destruct (truthy v); apply yields_ret. }
  destruct (getsize W c) as [bytes|].
  - destruct (Qlt_bool (mb bytes) small_chunk_mb).
    + exists None. intros i. apply Hend, yields_ret.
    + destruct (Qlt_bool strict_threshold_mb (mb bytes)).
      * destruct (Hrec c) as [v Hv].
        exists (if truthy v then v else None). intros i. apply Hend, Htext, Hv.
      * destruct (settled_single c) as [v Hv].
        exists (if truthy v then v else None). intros i. apply Hend, Htext, Hv.
  - exists None. intros i. apply Hend, yields_ret.
Qed.

End Settled.

(** ** The chunked run settles, whatever the scheduler *)

Section Chunking.

Import MediaService.

Variable W : World.

Lemma keep_successful acc outcomes :
  fold_left keep (map Returned outcomes) acc = acc ++ successful_texts outcomes.
Proof.
  revert acc. induction outcomes as [|t l IH]; intros acc; simpl.
  - now rewrite app_nil_r.
  - rewrite IH. destruct t as [[|a r]|]; simpl; auto.
    now rewrite <- app_assoc.
Qed.

Lemma merge_joined outcomes : merge (map Returned outcomes) = joined outcomes.
Proof. unfold merge, joined. now rewrite keep_successful. Qed.

Lemma tasks_yield {I} (recurse : I -> path -> Q -> nat -> M (option string))
    max depth :
  (forall q, exists v, forall i, yields (recurse i q max (depth + 1)) v) ->
  forall cs, exists outcomes,
    Forall2 (fun c t => forall i,
               yields (transcribe_chunk_with_limit W (recurse i) max depth c)
                      (Returned t)) cs outcomes.
Proof.
  intros Hrec. induction cs as [|c cs [outcomes IH]].
  - exists []. constructor.
  - destruct (task_yields W recurse max depth c Hrec) as [t Ht].
    exists (t :: outcomes). constructor; assumption.
Qed.

(** One invocation: when the split yields the plan [cs] and the tasks
    yield [outcomes], the invocation yields their merge. *)
Lemma chunking_merges fuel sched p max depth cs outcomes :
  yields (split_audio W p max depth) (Some cs) ->
  Forall2 (fun c t => yields (chunk_task W fuel sched max depth c) (Returned t))
          cs outcomes ->
  yields (_transcribe_with_ffmpeg_chunking W (S fuel) sched p max depth)
         (joined outcomes).
Proof.
  intros Hsplit Htasks. simpl.
  eapply yields_bind; [exact Hsplit|]. cbv beta iota.
  eapply yields_bind.
  - apply gather_yields with (vs := map Returned outcomes).
    clear Hsplit. induction Htasks; simpl; constructor; auto.
  - eapply yields_bind; [apply yields_rmtree|].
    rewrite merge_joined. apply yields_ret.
Qed.

Lemma chunking_fails fuel sched p max depth :
  yields (split_audio W p max depth) None ->
  yields (_transcribe_with_ffmpeg_chunking W (S fuel) sched p max depth) None.
Proof.
  intros Hsplit. simpl. eapply yields_bind; [exact Hsplit|]. apply yields_ret.
Qed.

(** With [S fuel] and [MAX_RECURSION <= fuel + depth] the run never runs
    out of fuel, and its value is the same for every scheduler. *)
Lemma chunking_settled fuel :
  forall p max depth,
    MAX_RECURSION <= fuel + depth ->
    exists v, forall sched,
      yields (_transcribe_with_ffmpeg_chunking W (S fuel) sched p max depth) v.
Proof.
  induction fuel as [|fuel IH]; intros p max depth Hfuel.
  - exists None. intros sched. apply chunking_fails.
    intros s. exists s. apply split_audio_ceiling. simpl in Hfuel. lia.
  - destruct (settled_split_audio W p max depth) as [[cs|] Hsplit].
    + destruct (tasks_yield
                  (fun sched => _transcribe_with_ffmpeg_chunking W (S fuel) sched)
                  max depth) with (cs := cs) as [outcomes Hout].
      { intros q. apply IH. lia. }
      exists (joined outcomes). intros sched.
      apply chunking_merges with (cs := cs); [exact Hsplit|].
      eapply Forall2_impl; [|exact Hout]. intros c t H. apply H.
    + exists None. intros sched. now apply chunking_fails.
Qed.

Lemma chunking_settled_at fuel sched p max depth :
  MAX_RECURSION <= fuel + depth ->
  settled (_transcribe_with_ffmpeg_chunking W (S fuel) sched p max depth).
Proof.
  intros Hfuel. destruct (chunking_settled fuel p max depth Hfuel) as [v Hv].
  exists v. apply Hv.
Qed.

Lemma chunking_total sched p max depth s :
  exists r s',
    _transcribe_with_ffmpeg_chunking W (S MAX_RECURSION) sched p max depth s
    = Some (r, s').
Proof.
  destruct (chunking_settled MAX_RECURSION p max depth) as [v Hv]; [lia|].
  destruct (Hv sched s) as [s' E]. eauto.
Qed.

Lemma transcribe_audio_total sched p s :
  exists r s', transcribe_audio W sched p s = Some (r, s').
Proof.
  unfold transcribe_audio. destruct (getsize W p) as [bytes|].
  - destruct (Qle_bool (mb bytes) (inject_Z (MAX_FILE_SIZE_MB W))).
    + destruct (settled_single W p) as [v Hv]. destruct (Hv s) as [s' E]. eauto.
    + apply chunking_total.
  - eexists _, _. reflexivity.
Qed.

Lemma yields_chunk_task_via (transcription : M (option string)) v c :
  yields transcription v ->
  yields (chunk_task_via W transcription c)
         (Returned (if truthy v then v else None)).
Proof.
  intros Hv. unfold chunk_task_via.
  apply yields_bind with (a := if truthy v then v else None).
  - eapply yields_bind; [exact Hv|]. cbv beta.
    destruct (truthy v); apply yields_ret.
  - eapply yields_bind; [apply yields_remove_chunk | apply yields_ret].
Qed.

Lemma task_settled fuel sched max depth c :
  MAX_RECURSION <= fuel + (depth + 1) ->
  settled (chunk_task W (S fuel) sched max depth c).
Proof.
  intros Hfuel.
  destruct (task_yields W
              (fun _ : unit => _transcribe_with_ffmpeg_chunking W (S fuel) sched)
              max depth c) as [t Ht].
  - intros q. destruct (chunking_settled fuel q max (depth + 1) Hfuel) as [v Hv].
    exists v. intros _. apply Hv.
  - exists (Returned t). apply (Ht tt).
Qed.

End Chunking.

Lemma yields_of_value {A} (m : M A) v :
  settled m -> value m = Some v -> yields m v.
Proof.
  intros [w Hw] Hv. unfold value in Hv.
  destruct (Hw empty_sys) as [s' E]. rewrite E in Hv.
  injection Hv as <-. exact Hw.
Qed.

Lemma value_of_yields {A} (m : M A) v : yields m v -> value m = Some v.
Proof. intros H. unfold value. now destruct (H empty_sys) as [s' ->]. Qed.

(** ** Comparisons of sizes *)

Lemma Qlt_bool_iff x y : Qlt_bool x y = true <-> (x < y)%Q.
Proof.
  unfold Qlt_bool. rewrite negb_true_iff. split; intros H.
  - apply Qnot_le_lt. intros Hle. apply Qle_bool_iff in Hle. congruence.
  - destruct (Qle_bool y x) eqn:E; auto.
    apply Qle_bool_iff in E. exfalso. eapply Qlt_not_le; eauto.
Qed.

Lemma Qlt_bool_false x y : Qlt_bool x y = false <-> (y <= x)%Q.
Proof.
  unfold Qlt_bool. rewrite negb_false_iff. apply Qle_bool_iff.
Qed.

(** ** What the merge keeps and drops *)

Lemma successful_texts_app o1 o2 :
  successful_texts (o1 ++ o2) = successful_texts o1 ++ successful_texts o2.
Proof. unfold successful_texts. apply flat_map_app. Qed.

Lemma joined_drops_failure o1 o2 : joined (o1 ++ None :: o2) = joined (o1 ++ o2).
Proof. unfold joined. now rewrite !successful_texts_app. Qed.

Lemma joined_all_failed (outcomes : list (option string)) :
  Forall (fun t => t = None) outcomes -> joined outcomes = None.
Proof.
  intros H. unfold joined.
  replace (successful_texts outcomes) with (@nil string); auto.
  induction H as [|t l -> _ IH]; simpl; auto.
Qed.

Lemma keep_nonempty results :
  forall acc, Forall (fun t => t <> EmptyString) acc ->
              Forall (fun t => t <> EmptyString)
                     (fold_left MediaService.keep results acc).
Proof.
  induction results as [|r l IH]; intros acc Hacc; simpl; auto.
  apply IH. destruct r as [[[|a t]|]|]; simpl; auto.
  apply Forall_app. split; auto. constructor; [discriminate|constructor].
Qed.

Lemma merge_never_empty results : MediaService.merge results <> Some EmptyString.
Proof.
  unfold MediaService.merge.
  pose proof (keep_nonempty results [] (Forall_nil _)) as H.
  destruct (fold_left MediaService.keep results []) as [|t l]; [discriminate|].
  inversion H as [|? ? Ht _]; subst.
  destruct t as [|a t]; [congruence|].
  simpl. destruct l; discriminate.
Qed.

(** ** The merge *)

Section Merge.

Import MediaService.

(** C1 (merge in chunk order).  For a file larger than
    [MAX_FILE_SIZE_MB] the split settles on a plan or on a failure.  With a
    plan, every chunk has one outcome (its text, or a failure) whatever the
    scheduler, and for every scheduler, that is for every order in which the
    chunk tasks complete, [transcribe_audio] returns the successful texts
    of the chunks, in the order of the plan, joined by a blank line;
    failed chunks leave nothing in it. *)
Theorem merged_in_chunk_order (W : World) (p : path) (bytes : Z) :
  getsize W p = Some bytes ->
  (inject_Z (MAX_FILE_SIZE_MB W) < mb bytes)%Q ->
  exists plan,
    yields (split_audio W p (inject_Z (MAX_FILE_SIZE_MB W)) 0) plan /\
    match plan with
    | None => forall sched, yields (transcribe_audio W sched p) None
    | Some chunk_paths =>
        exists outcomes,
          Forall2 (fun c t => forall sched,
                     yields (chunk_task W MAX_RECURSION sched
                               (inject_Z (MAX_FILE_SIZE_MB W)) 0 c)
                            (Returned t))
                  chunk_paths outcomes /\
          forall sched,
            yields (transcribe_audio W sched p)
                   (match successful_texts outcomes with
                    | [] => None
                    | texts => Some (String.concat blank_line texts)
                    end)
    end.
Proof.
  intros Hsize Hbig.
  assert (Hrun : forall sched,
             transcribe_audio W sched p =
             _transcribe_with_ffmpeg_chunking W (S MAX_RECURSION) sched p
               (inject_Z (MAX_FILE_SIZE_MB W)) 0).
  { intros sched. unfold transcribe_audio. rewrite Hsize.
    destruct (Qle_bool (mb bytes) (inject_Z (MAX_FILE_SIZE_MB W))) eqn:E; auto.
    apply Qle_bool_iff in E. exfalso. eapply Qlt_not_le; eauto. }
  destruct (settled_split_audio W p (inject_Z (MAX_FILE_SIZE_MB W)) 0)
    as [plan Hplan].
  exists plan. split; [exact Hplan|].
  destruct plan as [cs|].
  - destruct (tasks_yield W
                (fun sched => _transcribe_with_ffmpeg_chunking W MAX_RECURSION sched)
                (inject_Z (MAX_FILE_SIZE_MB W)) 0) with (cs := cs)
      as [outcomes Hout].
    { intros q. apply (chunking_settled W 2). unfold MAX_RECURSION. lia. }
    exists outcomes. split; [exact Hout|].
    intros sched. rewrite Hrun.
    apply (chunking_merges W MAX_RECURSION sched p _ 0 cs outcomes Hplan).
    eapply Forall2_impl; [|exact Hout]. intros c t H. apply H.
  - intros sched. rewrite Hrun. now apply chunking_fails.
Qed.

Lemma merged_in_chunk_order_witness :
  exists plan,
    yields (split_audio three_chunks talk 10 0) plan /\
    match plan with
    | None => forall sched, yields (transcribe_audio three_chunks sched talk) None
    | Some chunk_paths =>
        exists outcomes,
          Forall2 (fun c t => forall sched,
                     yields (chunk_task three_chunks MAX_RECURSION sched 10 0 c)
                            (Returned t))
                  chunk_paths outcomes /\
          forall sched,
            yields (transcribe_audio three_chunks sched talk)
                   (match successful_texts outcomes with
                    | [] => None
                    | texts => Some (String.concat blank_line texts)
                    end)
    end.
Proof.
  apply (merged_in_chunk_order three_chunks talk 31457280); reflexivity.
Defined.

End Merge.

(** ** Chunks that yield nothing *)

Section Failures.

Import MediaService.

Variable W : World.

Lemma chunk_dropped fuel sched p max depth c before after o1 o2 :
  yields (split_audio W p max depth) (Some (before ++ c :: after)) ->
  yields (chunk_task W fuel sched max depth c) (Returned None) ->
  Forall2 (fun c' t => yields (chunk_task W fuel sched max depth c') (Returned t))
          before o1 ->
  Forall2 (fun c' t => yields (chunk_task W fuel sched max depth c') (Returned t))
          after o2 ->
  yields (_transcribe_with_ffmpeg_chunking W (S fuel) sched p max depth)
         (joined (o1 ++ o2)).
Proof.
  intros Hsplit Hc H1 H2. rewrite <- joined_drops_failure.
  eapply chunking_merges; [exact Hsplit|].
  apply Forall2_app; [exact H1|]. constructor; assumption.
Qed.

Lemma all_dropped fuel sched p max depth cs :
  yields (split_audio W p max depth) (Some cs) ->
  Forall (fun c => yields (chunk_task W fuel sched max depth c) (Returned None)) cs ->
  yields (_transcribe_with_ffmpeg_chunking W (S fuel) sched p max depth) None.
Proof.
  intros Hsplit Hall.
  rewrite <- (joined_all_failed (map (fun _ => None) cs)).
  - eapply chunking_merges; [exact Hsplit|].
    clear Hsplit. induction Hall; simpl; constructor; auto.
  - clear. induction cs; simpl; constructor; auto.
Qed.

Lemma never_empty_success fuel sched p max depth s r s' :
  _transcribe_with_ffmpeg_chunking W fuel sched p max depth s = Some (r, s') ->
  r <> Some EmptyString.
Proof.
  destruct fuel as [|fuel]; simpl; [discriminate|].
  unfold bind at 1.
  destruct (split_audio W p max depth s) as [[[cs|] s1]|]; [| |discriminate].
  - unfold bind at 1.
    match goal with
    | |- context [gather ?ch ?ts s1] =>
        destruct (gather ch ts s1) as [[results s2]|]; [|discriminate]
    end.
    unfold bind at 1.
    destruct (yields_rmtree W p s2) as [s3 ->].
    unfold ret. intros [= <- _]. apply merge_never_empty.
  - unfold ret. intros [= <- _]. discriminate.
Qed.

(** A chunk of less than 0.01 MB: the task only runs its [finally]. *)
Lemma skip_small_chunk recurse max depth c bytes s :
  getsize W c = Some bytes ->
  (mb bytes < small_chunk_mb)%Q ->
  transcribe_chunk_with_limit W recurse max depth c s =
  (remove_chunk W c ;;; ret (Returned None)) s.
Proof.
  intros Hsize Hsmall. unfold transcribe_chunk_with_limit. rewrite Hsize.
  apply Qlt_bool_iff in Hsmall. rewrite Hsmall. reflexivity.
Qed.

Lemma yields_skip c : yields (remove_chunk W c ;;; ret (Returned (@None string)))
                             (Returned None).
Proof. eapply yields_bind; [apply yields_remove_chunk | apply yields_ret]. Qed.

(** A chunk above 9.5 MB: the task hands it to the enclosing method, one
    level deeper and with the same size budget. *)
Lemma resplit_large_chunk recurse max depth c bytes s :
  getsize W c = Some bytes ->
  (strict_threshold_mb < mb bytes)%Q ->
  transcribe_chunk_with_limit W recurse max depth c s =
  chunk_task_via W (recurse c max (depth + 1)) c s.
Proof.
  intros Hsize Hbig. unfold transcribe_chunk_with_limit, chunk_task_via.
  rewrite Hsize.
  assert (Hns : Qlt_bool (mb bytes) small_chunk_mb = false).
  { apply Qlt_bool_false. apply Qlt_le_weak.
    eapply Qlt_trans; [|exact Hbig]. reflexivity. }
  rewrite Hns. apply Qlt_bool_iff in Hbig. rewrite Hbig. reflexivity.
Qed.

(** A chunk from 0.01 MB up to 9.5 MB: one remote call. *)
Lemma send_chunk recurse max depth c bytes s :
  getsize W c = Some bytes ->
  (small_chunk_mb <= mb bytes)%Q ->
  (mb bytes <= strict_threshold_mb)%Q ->
  transcribe_chunk_with_limit W recurse max depth c s =
  chunk_task_via W (_transcribe_single_audio W c) c s.
Proof.
  intros Hsize Hlo Hhi. unfold transcribe_chunk_with_limit, chunk_task_via.
  rewrite Hsize.
  apply Qlt_bool_false in Hlo. rewrite Hlo.
  apply Qlt_bool_false in Hhi. rewrite Hhi. reflexivity.
Qed.

End Failures.

(** ** Statements about chunks *)

Section Chunks.

Import MediaService.

(** C7 (all chunks failed).  When the split produced a plan and every
    chunk task of it returns [None], the chunked run returns the failure
    [None]; and no chunked run at all returns the empty string. *)
Theorem all_chunks_failed (W : World) fuel sched p max depth cs :
  yields (split_audio W p max depth) (Some cs) ->
  Forall (fun c => yields (chunk_task W fuel sched max depth c) (Returned None)) cs ->
  yields (_transcribe_with_ffmpeg_chunking W (S fuel) sched p max depth) None /\
  forall fuel' sched' q max' depth' s r s',
    _transcribe_with_ffmpeg_chunking W fuel' sched' q max' depth' s = Some (r, s') ->
    r <> Some EmptyString.
Proof.
  intros Hsplit Hall. split.
  - now apply all_dropped with (cs := cs).
  - intros. eapply never_empty_success; eauto.
Qed.

Lemma all_fail_plan :
  yields (split_audio all_fail talk 10 0)
         (Some [Segment talk 0; Segment talk 1; Segment talk 2]).
Proof. apply yields_of_value; [apply settled_split_audio | reflexivity]. Qed.

Lemma all_fail_tasks sched :
  Forall (fun c => yields (chunk_task all_fail 3 sched 10 0 c) (Returned None))
         [Segment talk 0; Segment talk 1; Segment talk 2].
Proof.
  repeat constructor;
    (apply yields_of_value;
     [apply task_settled; unfold MAX_RECURSION; lia | reflexivity]).
Qed.

Lemma all_chunks_failed_witness :
  yields (_transcribe_with_ffmpeg_chunking all_fail 4 in_order talk 10 0) None /\
  forall fuel' sched' q max' depth' s r s',
    _transcribe_with_ffmpeg_chunking all_fail fuel' sched' q max' depth' s
      = Some (r, s') ->
    r <> Some EmptyString.
Proof.
  apply (all_chunks_failed all_fail 3 in_order talk 10 0
           [Segment talk 0; Segment talk 1; Segment talk 2]).
  - exact all_fail_plan.
  - exact (all_fail_tasks in_order).
Defined.

(** C5 (depth ceiling).  Take a chunk above the 9.5 MB threshold in an
    invocation whose re-split would run at depth [MAX_RECURSION] = 3 or
    deeper.  The recursive invocation returns [None] at once and leaves the
    disk and the trace as they were: nothing is split.  The chunk's task
    returns [None].  The invocation that holds the chunk merges the outcomes
    of the other chunks as if this one were absent.  And with the fuel that
    [transcribe_audio] supplies every run returns, from every depth, file
    and state. *)
Theorem recursion_ceiling (W : World) fuel sched max depth c bytes :
  getsize W c = Some bytes ->
  (strict_threshold_mb < mb bytes)%Q ->
  MAX_RECURSION <= depth + 1 ->
  (forall s, _transcribe_with_ffmpeg_chunking W (S fuel) sched c max (depth + 1) s
             = Some (None, s)) /\
  yields (chunk_task W (S fuel) sched max depth c) (Returned None) /\
  (forall p before after o1 o2,
      yields (split_audio W p max depth) (Some (before ++ c :: after)) ->
      Forall2 (fun c' t => yields (chunk_task W (S fuel) sched max depth c')
                                  (Returned t)) before o1 ->
      Forall2 (fun c' t => yields (chunk_task W (S fuel) sched max depth c')
                                  (Returned t)) after o2 ->
      yields (_transcribe_with_ffmpeg_chunking W (S (S fuel)) sched p max depth)
             (joined (o1 ++ o2))) /\
  (forall sched' p max' depth' s, exists r s',
      _transcribe_with_ffmpeg_chunking W (S MAX_RECURSION) sched' p max' depth' s
      = Some (r, s')) /\
  (forall sched' p s, exists r s', transcribe_audio W sched' p s = Some (r, s')).
Proof.
  intros Hsize Hbig Hdepth.
  assert (Hstop : forall s,
             _transcribe_with_ffmpeg_chunking W (S fuel) sched c max (depth + 1) s
             = Some (None, s)).
  { intros s. simpl. unfold bind.
    now rewrite split_audio_ceiling by assumption. }
  assert (Htask : yields (chunk_task W (S fuel) sched max depth c) (Returned None)).
  { intros s. unfold chunk_task.
    rewrite (resplit_large_chunk W _ max depth c bytes s Hsize Hbig).
    apply (yields_chunk_task_via W _ None).
    intros s0. exists s0. apply Hstop. }
  repeat split.
  - exact Hstop.
  - exact Htask.
  - intros p before after o1 o2 Hsplit H1 H2.
    now apply chunk_dropped with (c := c) (before := before) (after := after).
  - intros. apply chunking_total.
  - intros. apply transcribe_audio_total.
Qed.

Lemma recursion_ceiling_witness :
  (forall s, _transcribe_with_ffmpeg_chunking always_oversized 1 in_order
               (Segment (Segment talk 0) 0) 10 (2 + 1) s = Some (None, s)) /\
  yields (chunk_task always_oversized 1 in_order 10 2 (Segment (Segment talk 0) 0))
         (Returned None) /\
  (forall p before after o1 o2,
      yields (split_audio always_oversized p 10 2)
             (Some (before ++ Segment (Segment talk 0) 0 :: after)) ->
      Forall2 (fun c' t => yields (chunk_task always_oversized 1 in_order 10 2 c')
                                  (Returned t)) before o1 ->
      Forall2 (fun c' t => yields (chunk_task always_oversized 1 in_order 10 2 c')
                                  (Returned t)) after o2 ->
      yields (_transcribe_with_ffmpeg_chunking always_oversized 2 in_order p 10 2)
             (joined (o1 ++ o2))) /\
  (forall sched' p max' depth' s, exists r s',
      _transcribe_with_ffmpeg_chunking always_oversized (S MAX_RECURSION)
        sched' p max' depth' s = Some (r, s')) /\
  (forall sched' p s, exists r s',
      transcribe_audio always_oversized sched' p s = Some (r, s')).
Proof.
  apply (recursion_ceiling always_oversized 0 in_order 10 2
           (Segment (Segment talk 0) 0) 10485760).
  - reflexivity.
  - reflexivity.
  - unfold MAX_RECURSION. lia.
Defined.

(** C8 (the 9.5 MB re-check).  A chunk of exactly 9.5 MB is not split
    again: its task is the one around [_transcribe_single_audio], which
    issues one remote call for the chunk and nothing else.  A chunk of more
    than 9.5 MB is handed to [_transcribe_with_ffmpeg_chunking] itself, on
    that chunk, at [depth + 1], with the same [max_chunk_size_mb]. *)
Theorem recheck_at_threshold (W : World) fuel sched max depth c bytes :
  getsize W c = Some bytes ->
  ((mb bytes == strict_threshold_mb)%Q ->
   forall s,
     chunk_task W fuel sched max depth c s
     = chunk_task_via W (_transcribe_single_audio W c) c s /\
     exists text, _transcribe_single_audio W c s
                  = Some (text, logged s [EvRemote c])) /\
  ((strict_threshold_mb < mb bytes)%Q ->
   forall s,
     chunk_task W fuel sched max depth c s
     = chunk_task_via W
         (_transcribe_with_ffmpeg_chunking W fuel sched c max (depth + 1)) c s).
Proof.
  intros Hsize. split.
  - intros Heq s. split.
    + unfold chunk_task. apply send_chunk with (bytes := bytes); auto.
      * rewrite Heq. discriminate.
      * rewrite Heq. apply Qle_refl.
    + unfold _transcribe_single_audio. rewrite Hsize.
      destruct (truthy (OpenRouterAPI.transcribe_audio (post W c)));
        [|destruct (OpenRouterAPI.transcribe_audio (post W c))];
        eexists; reflexivity.
  - intros Hbig s. unfold chunk_task.
    now apply resplit_large_chunk with (bytes := bytes).
Qed.

Lemma recheck_at_threshold_witness :
  (mb 9961472 == strict_threshold_mb)%Q /\
  chunk_task at_threshold 3 in_order 10 0 (Segment talk 0) empty_sys
  = chunk_task_via at_threshold
      (_transcribe_single_audio at_threshold (Segment talk 0))
      (Segment talk 0) empty_sys /\
  (strict_threshold_mb < mb 9961473)%Q /\
  chunk_task above_threshold 3 in_order 10 0 (Segment talk 0) empty_sys
  = chunk_task_via above_threshold
      (_transcribe_with_ffmpeg_chunking above_threshold 3 in_order
         (Segment talk 0) 10 (0 + 1))
      (Segment talk 0) empty_sys.
Proof.
  split; [reflexivity|]. split.
  - apply (proj1 (recheck_at_threshold at_threshold 3 in_order 10 0
                    (Segment talk 0) 9961472 eq_refl) eq_refl empty_sys).
  - split; [reflexivity|].
    apply (proj2 (recheck_at_threshold above_threshold 3 in_order 10 0
                    (Segment talk 0) 9961473 eq_refl) eq_refl empty_sys).
Defined.

End Chunks.

(** ** Near-empty chunks *)

Section NearEmpty.

Import MediaService.

Lemma near_empty_task (W : World) fuel sched max depth c :
  near_empty W c ->
  yields (chunk_task W fuel sched max depth c) (Returned None).
Proof.
  intros (bytes & Hsize & Hsmall) s. unfold chunk_task.
  rewrite (skip_small_chunk W _ max depth c bytes s Hsize Hsmall).
  apply yields_skip.
Qed.

(** C9, as the code has it (near-empty chunks).  The task of a chunk
    smaller than 0.01 MB does nothing but its [finally] clause (no remote
    call, no re-split) and returns [None].  The invocation merges the
    outcomes of the other chunks as if this one were absent.  [None] is
    also what a failed chunk returns, and the run counts it the same way: a
    plan whose chunks are all near-empty ends in the failure [None]. *)
Theorem near_empty_chunk_skipped (W : World) fuel sched max depth c bytes :
  getsize W c = Some bytes ->
  (mb bytes < small_chunk_mb)%Q ->
  (forall s, chunk_task W fuel sched max depth c s
             = (remove_chunk W c ;;; ret (Returned None)) s) /\
  (forall p before after o1 o2,
      yields (split_audio W p max depth) (Some (before ++ c :: after)) ->
      Forall2 (fun c' t => yields (chunk_task W fuel sched max depth c')
                                  (Returned t)) before o1 ->
      Forall2 (fun c' t => yields (chunk_task W fuel sched max depth c')
                                  (Returned t)) after o2 ->
      yields (_transcribe_with_ffmpeg_chunking W (S fuel) sched p max depth)
             (joined (o1 ++ o2))) /\
  (forall p cs,
      yields (split_audio W p max depth) (Some cs) ->
      Forall (near_empty W) cs ->
      yields (_transcribe_with_ffmpeg_chunking W (S fuel) sched p max depth) None).
Proof.
  intros Hsize Hsmall. repeat split.
  - intros s. unfold chunk_task. now apply skip_small_chunk with (bytes := bytes).
  - intros p before after o1 o2 Hsplit H1 H2.
    apply chunk_dropped with (c := c) (before := before) (after := after); auto.
    apply near_empty_task. exists bytes. auto.
  - intros p cs Hsplit Hall.
    apply all_dropped with (cs := cs); auto.
    eapply Forall_impl; [|exact Hall]. intros c'. apply near_empty_task.
Qed.

Lemma near_empty_chunk_skipped_witness :
  (forall s, chunk_task tiny_chunks 3 in_order 10 0 (Segment talk 0) s
             = (remove_chunk tiny_chunks (Segment talk 0) ;;;
                ret (Returned None)) s) /\
  (forall p before after o1 o2,
      yields (split_audio tiny_chunks p 10 0)
             (Some (before ++ Segment talk 0 :: after)) ->
      Forall2 (fun c' t => yields (chunk_task tiny_chunks 3 in_order 10 0 c')
                                  (Returned t)) before o1 ->
      Forall2 (fun c' t => yields (chunk_task tiny_chunks 3 in_order 10 0 c')
                                  (Returned t)) after o2 ->
      yields (_transcribe_with_ffmpeg_chunking tiny_chunks 4 in_order p 10 0)
             (joined (o1 ++ o2))) /\
  (forall p cs,
      yields (split_audio tiny_chunks p 10 0) (Some cs) ->
      Forall (near_empty tiny_chunks) cs ->
      yields (_transcribe_with_ffmpeg_chunking tiny_chunks 4 in_order p 10 0) None).
Proof.
  apply (near_empty_chunk_skipped tiny_chunks 3 in_order 10 0 (Segment talk 0) 100);
    reflexivity.
Defined.

(** C9, as stated, fails: in [tiny_chunks] the plan has two chunks, both
    skipped and none failed, and the run ends in the failure [None]. *)
Lemma skipped_chunks_counted_as_failed : ~ skipped_chunks_are_successes.
Proof.
  intros H.
  apply (H tiny_chunks 3 in_order talk 10%Q 0 [Segment talk 0; Segment talk 1]).
  - apply yields_of_value; [apply settled_split_audio | reflexivity].
  - repeat constructor; exists 100%Z; split; reflexivity.
  - apply yields_of_value; [|reflexivity].
    apply chunking_settled_at. unfold MAX_RECURSION. lia.
Qed.

End NearEmpty.

(** ** The direct path *)

Section Direct.

Import MediaService.

Lemma single_audio_run (W : World) p bytes s :
  getsize W p = Some bytes ->
  _transcribe_single_audio W p s
  = Some (let result := OpenRouterAPI.transcribe_audio (post W p) in
          if truthy result then result else None,
          logged s [EvRemote p]).
Proof.
  intros Hsize. unfold _transcribe_single_audio. rewrite Hsize.
  destruct (OpenRouterAPI.transcribe_audio (post W p)) as [[|a t]|]; reflexivity.
Qed.

(** C6 (direct path).  For a file of at most [MAX_FILE_SIZE_MB],
    [transcribe_audio] issues exactly one remote call, for the file itself,
    and nothing else: no probe, no temporary directory, no segment pass,
    and the disk is as before.  It returns the text when the call gave a
    non-empty one and [None] otherwise; on a 413 answer it returns [None]
    after that single call. *)
Theorem direct_path_once (W : World) sched p bytes s :
  getsize W p = Some bytes ->
  (mb bytes <= inject_Z (MAX_FILE_SIZE_MB W))%Q ->
  transcribe_audio W sched p s
  = Some (let result := OpenRouterAPI.transcribe_audio (post W p) in
          if truthy result then result else None,
          logged s [EvRemote p]) /\
  (forall content, post W p = Response 413 content ->
                   transcribe_audio W sched p s = Some (None, logged s [EvRemote p])).
Proof.
  intros Hsize Hsmall.
  assert (Hrun : transcribe_audio W sched p s = _transcribe_single_audio W p s).
  { unfold transcribe_audio. rewrite Hsize.
    apply Qle_bool_iff in Hsmall. now rewrite Hsmall. }
  rewrite Hrun, (single_audio_run W p bytes s Hsize). split; [reflexivity|].
  intros content Hpost. now rewrite Hpost.
Qed.

Lemma direct_path_once_witness :
  transcribe_audio small_rejected in_order talk empty_sys
  = Some (let result := OpenRouterAPI.transcribe_audio (post small_rejected talk) in
          if truthy result then result else None,
          logged empty_sys [EvRemote talk]) /\
  (forall content, post small_rejected talk = Response 413 content ->
                   transcribe_audio small_rejected in_order talk empty_sys
                   = Some (None, logged empty_sys [EvRemote talk])).
Proof.
  apply (direct_path_once small_rejected in_order talk 5242880 empty_sys);
    [reflexivity | discriminate].
Defined.

End Direct.

(** ** The probe *)

Section Probe.

Import MediaService.

(** C4, as the code has it (probe failure).  Below the depth ceiling, with
    ffmpeg present and the file's size read, a failing probe (non-zero
    return code, or an exception) ends the chunked run at once: it returns
    [None], and has done nothing but the probe: no temporary directory, no
    segment pass, no remote call. *)
Theorem probe_failure_is_fatal (W : World) fuel sched p max depth bytes s :
  depth < MAX_RECURSION ->
  _check_ffmpeg W = true ->
  getsize W p = Some bytes ->
  probe_failure (ffprobe W p) ->
  _transcribe_with_ffmpeg_chunking W (S fuel) sched p max depth s
  = Some (None, logged s [EvProbe p]).
Proof.
  intros Hdepth Hffmpeg Hsize Hprobe. simpl. unfold bind at 1.
  unfold split_audio.
  destruct (Nat.leb_spec MAX_RECURSION depth) as [Hle|_]; [lia|].
  rewrite Hffmpeg, Hsize. simpl.
  destruct Hprobe as [E | [rc E]]; rewrite E; reflexivity.
Qed.

Lemma probe_failure_is_fatal_witness :
  _transcribe_with_ffmpeg_chunking probe_fails 4 in_order talk 10 0 empty_sys
  = Some (None, logged empty_sys [EvProbe talk]).
Proof.
  apply (probe_failure_is_fatal probe_fails 3 in_order talk 10 0 31457280 empty_sys).
  - unfold MAX_RECURSION. lia.
  - reflexivity.
  - reflexivity.
  - right. exists 1%Z. reflexivity.
Defined.

(** C4, as stated, fails: [three_chunks] is transcribed in full when the
    probe answers, and the run returns [None] when it does not. *)
Lemma probe_failure_fails_the_run : ~ probe_failure_is_harmless.
Proof.
  intros H.
  specialize (H three_chunks in_order talk 31457280%Z 600%Q (ProbeExit 1)
                eq_refl eq_refl eq_refl
                (or_intror (ex_intro _ 1%Z eq_refl)) eq_refl).
  vm_compute in H. discriminate H.
Qed.

End Probe.

(** ** Temporary files *)

Section TempFiles.

Import MediaService.

(** C2 at its failing inputs.  When both ffmpeg passes exit with an error,
    and when ffmpeg exits normally without writing a segment, the run
    returns [None] and the temporary directory it created is still on disk
    (with the segment already written, in the first case).  When ffmpeg
    raises instead, the handler removes the directory. *)
Theorem temp_dir_left_behind :
  transcribe_audio ffmpeg_fails in_order talk empty_sys
  = Some (None,
          {| files := [Segment talk 0];
             dirs := [talk];
             trace := [EvProbe talk; EvMkdtemp talk;
                       EvSegment StreamCopy talk; EvSegment ReEncode talk] |}) /\
  transcribe_audio no_segments in_order talk empty_sys
  = Some (None,
          {| files := [];
             dirs := [talk];
             trace := [EvProbe talk; EvMkdtemp talk; EvSegment StreamCopy talk] |}) /\
  transcribe_audio ffmpeg_times_out in_order talk empty_sys
  = Some (None,
          {| files := [];
             dirs := [];
             trace := [EvProbe talk; EvMkdtemp talk; EvSegment StreamCopy talk;
                       EvRmtree talk] |}).
Proof. repeat split; reflexivity. Qed.

End TempFiles.

(** ** The remote client *)

Section Remote.

(** C3, as the code has it (failure values).  Every failure of the remote
    call returns the one value [None]: a 413 answer, any other answer
    whose status is not 200, and an exception of [requests.post]. *)
Theorem failures_collapse (r : HttpOutcome) :
  (r = RequestRaises \/
   exists status_code content,
     r = Response status_code content /\ status_code <> 200%Z) ->
  OpenRouterAPI.transcribe_audio r = None.
Proof.
  intros [-> | (status_code & content & -> & Hne)]; simpl; auto.
  destruct (Z.eqb_spec status_code 200); [contradiction|].
  destruct (status_code =? 413)%Z; reflexivity.
Qed.

Lemma failures_collapse_witness :
  OpenRouterAPI.transcribe_audio (Response 413 None) = None.
Proof.
  apply (failures_collapse (Response 413 None)).
  right. exists 413%Z, None. split; [reflexivity | lia].
Defined.

(** C3, as stated, fails: the value returned for a 413 answer is the value
    returned for a 500 answer and for an exception. *)
Lemma too_large_not_told_apart : ~ too_large_is_told_apart.
Proof.
  intros H.
  destruct (H None 500%Z None) as [Hstatus _]; [lia | lia |].
  apply Hstatus. reflexivity.
Qed.

End Remote.

(** ** The semaphore *)

Section SemaphoreInvariant.

Import Semaphore.














(** With five tasks inside the block, a sixth cannot enter. *)
Example sixth_task_waits :
  run [Acquire 0; Acquire 1; Acquire 2; Acquire 3; Acquire 4; Acquire 5] (init 7)
  = None.
Proof. reflexivity. Qed.

End SemaphoreInvariant.

(** ** Runs of the example worlds *)

Section Examples.

Import MediaService.

Example three_chunks_in_order :
  value (transcribe_audio three_chunks in_order talk)
  = Some (Some (String.concat blank_line ["one"; "two"; "three"]%string)).
Proof. reflexivity. Qed.

Example three_chunks_last_first :
  value (transcribe_audio three_chunks last_first talk)
  = Some (Some (String.concat blank_line ["one"; "two"; "three"]%string)).
Proof. reflexivity. Qed.

Example middle_chunk_dropped :
  value (transcribe_audio middle_fails last_first talk)
  = Some (Some (String.concat blank_line ["one"; "three"]%string)).
Proof. reflexivity. Qed.

Example oversized_chunks_resplit :
  value (transcribe_audio always_oversized in_order talk)
  = Some (Some (String.concat blank_line ["text"; "text"; "text"]%string)).
Proof. reflexivity. Qed.

(** A run that reaches the merge removes every segment file and its
    temporary directory. *)
Example three_chunks_cleaned :
  match transcribe_audio three_chunks last_first talk empty_sys with
  | Some (_, s) => files s = [] /\ dirs s = []
  | None => False
  end.
Proof. simpl. split; reflexivity. Qed.

End Examples.

(** * Further properties of the pipeline *)

(** ** Paths and the lists of the disk *)

Lemma path_eqb_spec p q : reflect (p = q) (path_eqb p q).
Proof.
  revert q. induction p as [a|p IH i]; intros [b|q j]; simpl;
    try (constructor; discriminate).
  - destruct (String.eqb_spec a b); constructor; congruence.
  - destruct (Nat.eqb_spec i j); simpl.
    + destruct (IH q); constructor; congruence.
    + constructor; congruence.
Qed.

Lemma path_eqb_refl p : path_eqb p p = true.
Proof. now destruct (path_eqb_spec p p). Qed.

Lemma mem_In p l : mem p l = true <-> In p l.
Proof.
  unfold mem. rewrite existsb_exists. split.
  - intros (x & Hin & E). now destruct (path_eqb_spec p x); subst.
  - intros H. exists p. split; auto. apply path_eqb_refl.
Qed.

Lemma In_add p l x : In x (add p l) <-> x = p \/ In x l.
Proof.
  unfold add. destruct (mem p l) eqn:E.
  - apply mem_In in E. split; auto. intros [->|H]; auto.
  - rewrite in_app_iff. simpl. intuition congruence.
Qed.

Lemma In_drop p l x : In x (drop p l) <-> In x l /\ x <> p.
Proof.
  unfold drop. rewrite filter_In.
  destruct (path_eqb_spec x p); simpl; intuition congruence.
Qed.

Lemma In_write_segments p ks :
  forall l x,
    In x (fold_left (fun acc k => add (Segment p k) acc) ks l) ->
    In x l \/ in_dir p x = true.
Proof.
  induction ks as [|k ks IH]; intros l x H; simpl in *; auto.
  apply IH in H as [H|H]; auto.
  apply In_add in H as [->|H]; auto.
  right. simpl. apply path_eqb_refl.
Qed.

Lemma descends_level f q : descends f q = true -> level q <= level f.
Proof.
  induction f as [a|f IH k]; cbn [descends level].
  - rewrite orb_false_r. intros H.
    destruct (path_eqb_spec (Upload a) q); [subst; auto | discriminate].
  - intros H. apply orb_true_iff in H as [H|H].
    + destruct (path_eqb_spec (Segment f k) q); [subst; auto | discriminate].
    + apply IH in H. lia.
Qed.

Lemma descends_refl p : descends p p = true.
Proof. destruct p; cbn [descends]; now rewrite path_eqb_refl. Qed.

Lemma descends_trans f q r :
  descends f q = true -> descends q r = true -> descends f r = true.
Proof.
  induction f as [a|f IH k]; cbn [descends]; intros H1 H2.
  - rewrite orb_false_r in H1.
    destruct (path_eqb_spec (Upload a) q); [subst | discriminate].
    exact H2.
  - apply orb_true_iff in H1 as [H1|H1].
    + destruct (path_eqb_spec (Segment f k) q); [subst | discriminate].
      exact H2.
    + apply orb_true_iff. right. now apply IH.
Qed.

Lemma descends_segment q k : descends (Segment q k) q = true.
Proof. cbn [descends]. rewrite descends_refl. apply orb_true_r. Qed.

Lemma in_dir_below p f : in_dir p f = true -> strictly_below p f = true.
Proof.
  destruct f as [a|f k]; simpl; auto. intros H.
  destruct (path_eqb_spec f p); [subst | discriminate]. apply descends_refl.
Qed.

(** A segment of [p] does not lie below another segment of [p]. *)
Lemma sibling_not_below p k k' :
  strictly_below (Segment p k') (Segment p k) = false.
Proof.
  simpl. destruct (descends p (Segment p k')) eqn:E; auto.
  apply descends_level in E. simpl in E. lia.
Qed.

(** ** Relations kept by every step *)

Section Preserves.

Variable R : Sys -> Sys -> Prop.
Hypothesis R_refl : forall s, R s s.
Hypothesis R_trans : forall s1 s2 s3, R s1 s2 -> R s2 s3 -> R s1 s3.

Lemma preserves_ret {A} (a : A) : preserves R (ret a).
Proof. intros s a' s' H. unfold ret in H. injection H as _ <-. apply R_refl. Qed.

Lemma bind_inv {A B} (m : M A) (f : A -> M B) s b s' :
  bind m f s = Some (b, s') ->
  exists a s1, m s = Some (a, s1) /\ f a s1 = Some (b, s').
Proof.
  unfold bind. destruct (m s) as [[a s1]|]; [|discriminate]. eauto.
Qed.

Lemma preserves_bind {A B} (m : M A) (f : A -> M B) :
  preserves R m -> (forall a, preserves R (f a)) -> preserves R (bind m f).
Proof.
  intros Hm Hf s b s' H. apply bind_inv in H as (a & s1 & H1 & H2).
  eapply R_trans; [eapply Hm | eapply Hf]; eauto.
Qed.

Lemma preserves_out_of_fuel {A} : preserves R (@out_of_fuel A).
Proof. intros s a s' H. discriminate. Qed.

Lemma preserves_read (m : M bool) :
  (forall s, exists x, m s = Some (x, s)) -> preserves R m.
Proof.
  intros Hm s a s' H. destruct (Hm s) as [x E]. rewrite E in H.
  injection H as _ <-. apply R_refl.
Qed.

Lemma take_out_In {A} (l : list A) :
  forall k x rest, take_out k l = Some (x, rest) ->
                   In x l /\ (forall y, In y rest -> In y l) /\
                   length l = S (length rest).
Proof.
  induction l as [|y l IH]; intros k x rest H.
  { destruct k; discriminate H. }
  destruct k as [|k]; simpl in H.
  - injection H as <- <-. simpl. auto.
  - destruct (take_out k l) as [[z t]|] eqn:E; [|discriminate].
    injection H as <- <-. destruct (IH _ _ _ E) as (H1 & H2 & H3).
    repeat split; simpl; auto.
    intros w [->|Hw]; [left|right]; auto.
Qed.

Lemma preserves_run_pending {A} choice n :
  forall j (pending : list (nat * M A)),
    Forall (fun it => preserves R (snd it)) pending ->
    preserves R (run_pending n choice j pending).
Proof.
  induction n as [|n IH]; intros j pending Hall; simpl.
  - apply preserves_ret.
  - destruct (take_out (choice j mod length pending) pending)
      as [[[i task] rest]|] eqn:E; [|apply preserves_ret].
    destruct (take_out_In _ _ _ _ E) as (Hin & Hrest & _).
    rewrite Forall_forall in Hall.
    apply preserves_bind; [apply (Hall _ Hin)|]. intros r.
    apply preserves_bind; [|intros; apply preserves_ret].
    apply IH. rewrite Forall_forall. intros it Hit. apply Hall. auto.
Qed.

Lemma preserves_gather {A} choice (tasks : list (M A)) :
  Forall (preserves R) tasks -> preserves R (gather choice tasks).
Proof.
  intros Hall. unfold gather.
  apply preserves_bind; [|intros; apply preserves_ret].
  apply preserves_run_pending.
  rewrite Forall_forall in *. intros [i t] Hin.
  apply in_combine_r in Hin. simpl. auto.
Qed.

End Preserves.

Lemma preserves_weaken {A} (R R' : Sys -> Sys -> Prop) (m : M A) :
  (forall s s', R s s' -> R' s s') -> preserves R m -> preserves R' m.
Proof. intros H Hm s a s' E. apply H. eapply Hm; eauto. Qed.

(** ** [moves]: the trace only grows, the disk only gains what is allowed *)

Section Moves.

Variable P : event -> Prop.
Variables F D : path -> Prop.

Lemma moves_refl s : moves P F D s s.
Proof.
  split.
  - exists []. now rewrite app_nil_r.
  - split; auto.
Qed.

Lemma moves_trans s1 s2 s3 :
  moves P F D s1 s2 -> moves P F D s2 s3 -> moves P F D s1 s3.
Proof.
  intros [(e1 & E1 & H1) [Hf1 Hd1]] [(e2 & E2 & H2) [Hf2 Hd2]]. split.
  - exists (e1 ++ e2). rewrite E2, E1, app_assoc. split; auto.
    apply Forall_app; auto.
  - split.
    + intros f Hf. destruct (Hf2 f Hf) as [H|H]; auto.
    + intros d Hd. destruct (Hd2 d Hd) as [H|H]; auto.
Qed.

Lemma moves_emit e : P e -> preserves (moves P F D) (emit e).
Proof.
  intros He s a s' H. unfold emit in H. injection H as _ <-. split.
  - exists [e]. simpl. auto.
  - split; simpl; auto.
Qed.

Lemma moves_set_files f :
  (forall l x, In x (f l) -> In x l \/ F x) ->
  preserves (moves P F D) (set_files f).
Proof.
  intros Hf s a s' H. unfold set_files in H. injection H as _ <-. split.
  - exists []. simpl. now rewrite app_nil_r.
  - split; simpl; auto.
Qed.

Lemma moves_set_dirs f :
  (forall l x, In x (f l) -> In x l \/ D x) ->
  preserves (moves P F D) (set_dirs f).
Proof.
  intros Hf s a s' H. unfold set_dirs in H. injection H as _ <-. split.
  - exists []. simpl. now rewrite app_nil_r.
  - split; simpl; auto.
Qed.

End Moves.

Lemma moves_weaken (P P' : event -> Prop) (F F' D D' : path -> Prop) s s' :
  (forall e, P e -> P' e) -> (forall f, F f -> F' f) -> (forall d, D d -> D' d) ->
  moves P F D s s' -> moves P' F' D' s s'.
Proof.
  intros HP HF HD [(evs & E & Hevs) [Hf Hd]]. split.
  - exists evs. split; auto. eapply Forall_impl; eauto.
  - split.
    + intros f H. destruct (Hf f H); auto.
    + intros d H. destruct (Hd d H); auto.
Qed.

(** ** What each step of [MediaService] moves *)

Section StepsMove.

Import MediaService.

Variable W : World.
Variable P : event -> Prop.
Variables F D : path -> Prop.

Lemma moves_ret {A} (a : A) : preserves (moves P F D) (ret a).
Proof. apply preserves_ret. apply moves_refl. Qed.

Lemma moves_bind {A B} (m : M A) (f : A -> M B) :
  preserves (moves P F D) m -> (forall a, preserves (moves P F D) (f a)) ->
  preserves (moves P F D) (bind m f).
Proof. apply preserves_bind. apply moves_trans. Qed.

Lemma moves_gather {A} choice (tasks : list (M A)) :
  Forall (preserves (moves P F D)) tasks ->
  preserves (moves P F D) (gather choice tasks).
Proof. apply preserves_gather; [apply moves_refl | apply moves_trans]. Qed.

Lemma moves_exists_file p : preserves (moves P F D) (exists_file p).
Proof.
  apply preserves_read; [apply moves_refl|]. intros s. eexists. reflexivity.
Qed.

Lemma moves_exists_dir p : preserves (moves P F D) (exists_dir p).
Proof.
  apply preserves_read; [apply moves_refl|]. intros s. eexists. reflexivity.
Qed.

Lemma moves_rmtree d : P (EvRmtree d) -> preserves (moves P F D) (rmtree W d).
Proof.
  intros Hd. unfold rmtree. apply moves_bind; [now apply moves_emit|]. intros _.
  destruct (rmtree_ok W d); [|apply moves_ret].
  apply moves_bind.
  - apply moves_set_files. intros l x H. apply filter_In in H. tauto.
  - intros _. apply moves_set_dirs. intros l x H. apply In_drop in H. tauto.
Qed.

Lemma moves_cleanup_after_error d :
  P (EvRmtree d) -> preserves (moves P F D) (cleanup_after_error W d).
Proof.
  intros Hd. unfold cleanup_after_error.
  apply moves_bind; [apply moves_exists_dir|].
  intros [|]; [now apply moves_rmtree | apply moves_ret].
Qed.

Lemma moves_remove_chunk c :
  P (EvRemove c) -> preserves (moves P F D) (remove_chunk W c).
Proof.
  intros Hc. unfold remove_chunk.
  apply moves_bind; [apply moves_exists_file|].
  intros [|]; [|apply moves_ret].
  destruct (remove_ok W c); [|now apply moves_emit].
  apply moves_bind; [now apply moves_emit|]. intros _.
  apply moves_set_files. intros l x H. apply In_drop in H. tauto.
Qed.

Lemma moves_run_segment c p d :
  P (EvSegment c p) -> (forall f, in_dir p f = true -> F f) ->
  preserves (moves P F D) (run_segment W c p d).
Proof.
  intros Hc HF. unfold run_segment.
  apply moves_bind; [now apply moves_emit|]. intros _.
  assert (Hw : forall n, preserves (moves P F D) (write_segments p n)).
  { intros n. apply moves_set_files. intros l x H.
    apply In_write_segments in H as [H|H]; auto. }
  destruct (ffmpeg_segment W c p d);
    (apply moves_bind; [apply Hw | intros; apply moves_ret]).
Qed.

Lemma moves_split_audio p max depth :
  (depth < MAX_RECURSION ->
   P (EvProbe p) /\ P (EvMkdtemp p) /\ (forall c, P (EvSegment c p)) /\
   P (EvRmtree p)) ->
  (forall f, in_dir p f = true -> F f) ->
  D p ->
  preserves (moves P F D) (split_audio W p max depth).
Proof.
  intros HP HF HD. unfold split_audio.
  destruct (Nat.leb_spec MAX_RECURSION depth) as [_|Hlt]; [apply moves_ret|].
  destruct (HP Hlt) as (Hprobe & Hmk & Hseg & Hrm).
  pose proof (moves_cleanup_after_error p Hrm) as Hclean.
  repeat first
    [ apply moves_ret
    | apply Hclean
    | apply moves_emit; assumption
    | apply moves_run_segment; [apply Hseg | exact HF]
    | apply moves_set_dirs; intros l x Hx; apply In_add in Hx as [->|Hx]; auto
    | apply moves_bind; [|intros ?]
    | match goal with
      | |- preserves _ (match ?x with _ => _ end) => destruct x
      end ].
Qed.

Lemma moves_single c :
  (forall bytes, getsize W c = Some bytes -> P (EvRemote c)) ->
  preserves (moves P F D) (_transcribe_single_audio W c).
Proof.
  intros Hc. unfold _transcribe_single_audio.
  destruct (getsize W c) as [bytes|]; [|apply moves_ret].
  apply moves_bind; [apply moves_emit; eauto|]. intros _.
  destruct (truthy _); [apply moves_ret|].
  destruct (OpenRouterAPI.transcribe_audio _); apply moves_ret.
Qed.

Lemma moves_task recurse max depth c :
  preserves (moves P F D) (recurse c max (depth + 1)) ->
  P (EvRemove c) ->
  (forall bytes, getsize W c = Some bytes ->
                 (small_chunk_mb <= mb bytes)%Q ->
                 (mb bytes <= strict_threshold_mb)%Q -> P (EvRemote c)) ->
  preserves (moves P F D) (transcribe_chunk_with_limit W recurse max depth c).
Proof.
  intros Hrec Hremove Hremote. unfold transcribe_chunk_with_limit.
  apply moves_bind; [|intros r; apply moves_bind;
                       [now apply moves_remove_chunk | intros; apply moves_ret]].
  destruct (getsize W c) as [bytes|] eqn:Hsize; [|apply moves_ret].
  destruct (Qlt_bool (mb bytes) small_chunk_mb) eqn:Hsmall; [apply moves_ret|].
  apply Qlt_bool_false in Hsmall.
  apply moves_bind;
    [|intros text; destruct (truthy text); apply moves_ret].
  destruct (Qlt_bool strict_threshold_mb (mb bytes)) eqn:Hbig; [exact Hrec|].
  apply Qlt_bool_false in Hbig.
  apply moves_single. intros b Hb. rewrite Hsize in Hb. injection Hb as <-.
  eauto.
Qed.

End StepsMove.

(** ** What the split returns *)

Lemma returns_ret {A} (Q : A -> Prop) a : Q a -> returns Q (ret a).
Proof. intros H s a' s' E. unfold ret in E. now injection E as <- _. Qed.

Lemma returns_bind {A B} (Q : B -> Prop) (m : M A) (f : A -> M B) :
  (forall a, returns Q (f a)) -> returns Q (bind m f).
Proof.
  intros Hf s b s' H. apply bind_inv in H as (a & s1 & _ & H). eapply Hf; eauto.
Qed.

Lemma preserves_bind_returns {A B} (R : Sys -> Sys -> Prop) (Q : A -> Prop)
    (m : M A) (f : A -> M B) :
  (forall s1 s2 s3, R s1 s2 -> R s2 s3 -> R s1 s3) ->
  returns Q m -> preserves R m -> (forall a, Q a -> preserves R (f a)) ->
  preserves R (bind m f).
Proof.
  intros Htrans HQ Hm Hf s b s' H. apply bind_inv in H as (a & s1 & H1 & H2).
  eapply Htrans; [eapply Hm | eapply Hf]; eauto.
Qed.

Lemma split_audio_plan (W : World) p max depth :
  returns (plan_of p depth) (MediaService.split_audio W p max depth).
Proof.
  unfold MediaService.split_audio.
  destruct (Nat.leb_spec MediaService.MAX_RECURSION depth) as [_|Hlt];
    [now apply returns_ret|].
  repeat first
    [ apply returns_ret; exact I
    | apply returns_bind; intros ?
    | match goal with
      | |- returns _ (match ?x with _ => _ end) => destruct x eqn:?
      end ].
  apply returns_ret. simpl. split; auto.
  match goal with
  | H : MediaService.list_chunks _ _ _ _ = _ |- _ =>
      unfold MediaService.list_chunks in H; rewrite <- H
  end.
  match goal with
  | |- exists n, _ /\ map _ (seq 0 ?m) = _ => exists m
  end.
  split; auto.
  match goal with
  | H : map _ (seq 0 ?m) = _ :: _ |- 0 < ?m =>
      destruct m; [discriminate H | lia]
  end.
Qed.

(** ** The events of a chunked run *)

Section Events.

Import MediaService.

Variable W : World.

Lemma within_depth_self p depth : depth < MAX_RECURSION -> within_depth p depth p.
Proof. intros H. split; [apply descends_refl | lia]. Qed.

Lemma within_depth_deeper p k depth q :
  within_depth (Segment p k) (depth + 1) q -> within_depth p depth q.
Proof.
  intros [Hd Hl]. split.
  - eapply descends_trans; [exact Hd | apply descends_segment].
  - unfold MAX_RECURSION in *. simpl in Hl. lia.
Qed.

Lemma chunked_event_deeper p k depth ev :
  chunked_event W (Segment p k) (depth + 1) ev -> chunked_event W p depth ev.
Proof.
  destruct ev; simpl; try apply within_depth_deeper.
  - intros (q & j & bytes & -> & Hq & Hrest).
    exists q, j, bytes. split; auto. split; auto.
    eapply within_depth_deeper; eauto.
  - intros (q & j & -> & Hq). exists q, j. split; auto.
    eapply within_depth_deeper; eauto.
Qed.

(** A chunked run on [p] only issues the events of [chunked_event], only
    adds files strictly below [p], and only adds directories made for [p]
    or for files below it. *)
Lemma chunking_moves fuel sched :
  forall p max depth,
    preserves (moves (chunked_event W p depth)
                     (fun f => strictly_below p f = true)
                     (fun d => descends d p = true))
              (_transcribe_with_ffmpeg_chunking W fuel sched p max depth).
Proof.
  induction fuel as [|fuel IH]; intros p max depth; simpl.
  - apply preserves_out_of_fuel.
  - apply preserves_bind_returns with (Q := plan_of p depth).
    + apply moves_trans.
    + apply split_audio_plan.
    + apply moves_split_audio.
      * intros Hlt. pose proof (within_depth_self p depth Hlt). simpl. auto.
      * apply in_dir_below.
      * apply descends_refl.
    + intros [cs|] Hplan; [|apply moves_ret].
      destruct Hplan as (Hlt & n & _ & ->).
      pose proof (within_depth_self p depth Hlt) as Hself.
      apply moves_bind; [|intros results; apply moves_bind;
                           [now apply moves_rmtree | intros; apply moves_ret]].
      apply moves_gather. rewrite Forall_forall. intros task Htask.
      apply in_map_iff in Htask as (c & <- & Hc).
      apply in_map_iff in Hc as (k & <- & _).
      apply moves_task.
      * eapply preserves_weaken; [|apply IH].
        intros s s'. apply moves_weaken.
        -- apply chunked_event_deeper.
        -- intros [a|f j]; simpl; auto. intros H.
           eapply descends_trans; [exact H | apply descends_segment].
        -- intros d H.
           eapply descends_trans; [exact H | apply descends_segment].
      * simpl. eauto.
      * intros bytes Hsize Hlo Hhi. simpl. exists p, k, bytes. auto.
Qed.

Lemma pipeline_moves sched p :
  preserves (moves (pipeline_event W p)
                   (fun f => strictly_below p f = true)
                   (fun d => descends d p = true))
            (transcribe_audio W sched p).
Proof.
  unfold transcribe_audio.
  destruct (getsize W p) as [bytes|] eqn:Hsize; [|apply moves_ret].
  destruct (Qle_bool (mb bytes) (inject_Z (MAX_FILE_SIZE_MB W))) eqn:Hle.
  - apply moves_single. intros b Hb. left. exists bytes.
    apply Qle_bool_iff in Hle. auto.
  - eapply preserves_weaken; [|apply chunking_moves].
    intros s s'. apply moves_weaken; auto. intros e He. now right.
Qed.

(** X1 (sizes of the payloads).  Every run of [transcribe_audio] returns,
    and each remote call it issues is either the one call of the direct
    path, for the given file, of at most [MAX_FILE_SIZE_MB], or a call for
    a segment of a size from 0.01 MB to 9.5 MB. *)
Theorem remote_calls_within_size sched p s :
  exists r s' evs,
    transcribe_audio W sched p s = Some (r, s') /\
    trace s' = trace s ++ evs /\
    forall c, In (EvRemote c) evs ->
      exists bytes,
        getsize W c = Some bytes /\
        ((c = p /\ (mb bytes <= inject_Z (MAX_FILE_SIZE_MB W))%Q) \/
         ((exists q k, c = Segment q k) /\
          (small_chunk_mb <= mb bytes)%Q /\
          (mb bytes <= strict_threshold_mb)%Q)).
Proof.
  destruct (transcribe_audio_total W sched p s) as (r & s' & Hrun).
  destruct (pipeline_moves sched p s r s' Hrun) as [(evs & Htrace & Hevs) _].
  exists r, s', evs. repeat split; auto.
  intros c Hc. rewrite Forall_forall in Hevs.
  destruct (Hevs _ Hc) as [(bytes & E & Hsize & Hle) | Hchunk].
  - injection E as <-. exists bytes. auto.
  - destruct Hchunk as (q & k & bytes & -> & _ & Hsize & Hlo & Hhi).
    exists bytes. split; auto. right. eauto.
Qed.

(** X2 (depth of the splits).  In every run of [transcribe_audio] on an
    upload, ffprobe, mkdtemp and ffmpeg are only applied to the upload and
    to segments at most two levels below it, and remote calls are only
    issued for the upload and for segments at most three levels below. *)
Theorem splits_within_depth sched name s :
  exists r s' evs,
    transcribe_audio W sched (Upload name) s = Some (r, s') /\
    trace s' = trace s ++ evs /\
    forall ev, In ev evs ->
      match ev with
      | EvProbe q | EvMkdtemp q | EvSegment _ q =>
          descends q (Upload name) = true /\ level q < MAX_RECURSION
      | EvRemote c =>
          descends c (Upload name) = true /\ level c <= MAX_RECURSION
      | _ => True
      end.
Proof.
  destruct (transcribe_audio_total W sched (Upload name) s) as (r & s' & Hrun).
  destruct (pipeline_moves sched _ s r s' Hrun) as [(evs & Htrace & Hevs) _].
  exists r, s', evs. repeat split; auto.
  intros ev Hev. rewrite Forall_forall in Hevs.
  destruct (Hevs _ Hev) as [(bytes & -> & _) | Hchunk].
  - split; [apply descends_refl | unfold MAX_RECURSION; simpl; lia].
  - unfold within_depth, MAX_RECURSION in *.
    destruct ev; simpl in Hchunk; auto;
      try (destruct Hchunk as [Hd Hl]; simpl in Hl; split; [exact Hd | lia]).
    destruct Hchunk as (q & k & bytes & -> & [Hd Hl] & _). simpl in Hl.
    split; [|simpl; lia].
    cbn [descends]. rewrite Hd. apply orb_true_r.
Qed.

End Events.

(** ** What a run leaves on disk *)

Section Stepwise.

Import MediaService.

Variable W : World.

Lemma bind_ret {A B} (a : A) (k : A -> M B) s : bind (ret a) k s = k a s.
Proof. reflexivity. Qed.

Lemma bind_emit {B} e (k : unit -> M B) s : bind (emit e) k s = k tt (logged s [e]).
Proof. reflexivity. Qed.

Lemma bind_set_dirs_add {B} p (k : unit -> M B) s :
  bind (set_dirs (add p)) k s = k tt (with_dir p s).
Proof. reflexivity. Qed.

Lemma run_segment_exact c p d s :
  run_segment W c p d s
  = Some (exit_code (ffmpeg_segment W c p d),
          with_segments p (written (ffmpeg_segment W c p d))
            (logged s [EvSegment c p])).
Proof. unfold run_segment. destruct (ffmpeg_segment W c p d); reflexivity. Qed.

Lemma rmtree_exact d s :
  rmtree_ok W d = true ->
  rmtree W d s = Some (tt, without_tree d (logged s [EvRmtree d])).
Proof. intros H. unfold rmtree, bind. simpl. rewrite H. reflexivity. Qed.

Lemma cleanup_exact d s :
  rmtree_ok W d = true -> In d (dirs s) ->
  cleanup_after_error W d s = Some (tt, without_tree d (logged s [EvRmtree d])).
Proof.
  intros H Hin. unfold cleanup_after_error, bind, exists_dir.
  apply mem_In in Hin. rewrite Hin. now apply rmtree_exact.
Qed.

(** Once the directory of [p] and what was written into it are removed,
    nothing that was added for [p] is left. *)
Lemma tidy_without_tree p s s2 :
  keeps_disk (fun f => in_dir p f = true) (fun d => d = p) s s2 ->
  keeps_disk nothing nothing s (without_tree p s2).
Proof.
  intros [Hf Hd]. split; simpl.
  - intros f H. apply filter_In in H as [H Hn].
    destruct (Hf f H) as [|E]; auto. rewrite E in Hn. discriminate.
  - intros d H. apply In_drop in H as [H Hn].
    destruct (Hd d H) as [|E]; auto. contradiction.
Qed.

Lemma keeps_disk_logged F D s s2 evs :
  keeps_disk F D s s2 -> keeps_disk F D s (logged s2 evs).
Proof. intros H. exact H. Qed.

Lemma keeps_disk_with_segments p n s s2 :
  keeps_disk (fun f => in_dir p f = true) (fun d => d = p) s s2 ->
  keeps_disk (fun f => in_dir p f = true) (fun d => d = p) s (with_segments p n s2).
Proof.
  intros [Hf Hd]. split; simpl; auto.
  intros f H. apply In_write_segments in H as [H|H]; auto.
Qed.

Lemma keeps_disk_with_dir p s :
  keeps_disk (fun f => in_dir p f = true) (fun d => d = p) s (with_dir p s).
Proof.
  split; simpl; auto. intros d H. apply In_add in H as [->|H]; auto.
Qed.

End Stepwise.

Section Leftovers.

Import MediaService.

Variable W : World.
Hypothesis rmtree_succeeds : forall d, rmtree_ok W d = true.
Hypothesis cleanup_reached : forall p d, returns_without_cleanup W p d = false.

Lemma split_audio_tidy p max depth s s1 :
  split_audio W p max depth s = Some (None, s1) ->
  keeps_disk nothing nothing s s1.
Proof.
  assert (Hsame : forall s2, files s2 = files s -> dirs s2 = dirs s ->
                             ret (@None (list path)) s2 = Some (None, s1) ->
                             keeps_disk nothing nothing s s1).
  { intros s2 Hf Hd H. unfold ret in H. injection H as <-.
    split; intros x Hx; left; congruence. }
  unfold split_audio.
  destruct (MAX_RECURSION <=? depth); [now apply Hsame|].
  destruct (_check_ffmpeg W); simpl; [|now apply Hsame].
  destruct (getsize W p) as [bytes|]; [|now apply Hsame].
  rewrite bind_emit.
  destruct (ffprobe W p) as [rc|duration|]; try (now apply Hsame).
  destruct (bytes =? 0)%Z; [now apply Hsame|].
  match goal with
  | |- context [Qlt_bool ?cd MIN_CHUNK_DURATION] => set (chunk_duration := cd)
  end.
  destruct (Qlt_bool chunk_duration MIN_CHUNK_DURATION); [now apply Hsame|].
  pose proof (cleanup_reached p chunk_duration) as Hq.
  unfold returns_without_cleanup in Hq.
  rewrite bind_emit, bind_set_dirs_add.
  set (s0 := with_dir p (logged (logged s [EvProbe p]) [EvMkdtemp p])).
  assert (H0 : keeps_disk (fun f => in_dir p f = true) (fun d => d = p) s s0)
    by apply (keeps_disk_with_dir p s).
  assert (Hin0 : In p (dirs s0)) by (simpl; apply In_add; now left).
  unfold bind at 1. rewrite run_segment_exact.
  unfold list_chunks.
  set (o1 := ffmpeg_segment W StreamCopy p chunk_duration) in *.
  set (sa := with_segments p (written o1) (logged s0 [EvSegment StreamCopy p])).
  assert (Ha : keeps_disk (fun f => in_dir p f = true) (fun d => d = p) s sa)
    by (apply keeps_disk_with_segments; exact H0).
  assert (Hina : In p (dirs sa)) by exact Hin0.
  assert (Hclean : forall s2,
             keeps_disk (fun f => in_dir p f = true) (fun d => d = p) s s2 ->
             In p (dirs s2) ->
             (cleanup_after_error W p ;;; ret (@None (list path))) s2
             = Some (None, s1) ->
             keeps_disk nothing nothing s s1).
  { intros s2 H2 Hin2. unfold bind.
    rewrite cleanup_exact by auto. intros [= <-].
    apply tidy_without_tree. exact H2. }
  destruct o1 as [rc1 n1|n1]; cbn [exit_code written] in *; [|now apply Hclean].
  destruct (rc1 =? 0)%Z eqn:Hrc1; cbn [negb].
  - rewrite bind_ret. rewrite Hrc1. cbn [negb].
    destruct n1 as [|n1]; [discriminate Hq|].
    destruct (map (Segment p) (seq 0 (S n1))) eqn:Hmap; [discriminate Hmap|].
    destruct (forallb _ _); [discriminate|]. now apply Hclean.
  - unfold bind at 1. rewrite run_segment_exact.
    set (o2 := ffmpeg_segment W ReEncode p chunk_duration) in *.
    set (sb := with_segments p (written o2) (logged sa [EvSegment ReEncode p])).
    assert (Hb : keeps_disk (fun f => in_dir p f = true) (fun d => d = p) s sb)
      by (apply keeps_disk_with_segments; exact Ha).
    assert (Hinb : In p (dirs sb)) by exact Hina.
    destruct o2 as [rc2 n2|n2]; cbn [exit_code written] in *; [|now apply Hclean].
    destruct (rc2 =? 0)%Z; cbn [negb orb] in *; [|discriminate Hq].
    destruct (Nat.max n1 n2) as [|m]; [discriminate Hq|].
    destruct (map (Segment p) (seq 0 (S m))) eqn:Hmap; [discriminate Hmap|].
    destruct (forallb _ _); [discriminate|]. now apply Hclean.
Qed.

Lemma split_audio_dirty p max depth :
  preserves (keeps_disk (fun f => in_dir p f = true) (fun d => d = p))
            (split_audio W p max depth).
Proof.
  eapply preserves_weaken;
    [|apply (moves_split_audio W (fun _ => True)
               (fun f => in_dir p f = true) (fun d => d = p)); auto].
  intros s s' [_ H]. exact H.
Qed.

Lemma tidy_trans s1 s2 s3 :
  keeps_disk nothing nothing s1 s2 -> keeps_disk nothing nothing s2 s3 ->
  keeps_disk nothing nothing s1 s3.
Proof.
  intros [Hf1 Hd1] [Hf2 Hd2]. split.
  - intros f H. destruct (Hf2 f H) as [H'|[]]. auto.
  - intros d H. destruct (Hd2 d H) as [H'|[]]. auto.
Qed.

Lemma dirty_then_tidy F D s1 s2 s3 :
  keeps_disk F D s1 s2 -> keeps_disk nothing nothing s2 s3 -> keeps_disk F D s1 s3.
Proof.
  intros [Hf1 Hd1] [Hf2 Hd2]. split.
  - intros f H. destruct (Hf2 f H) as [H'|[]]. auto.
  - intros d H. destruct (Hd2 d H) as [H'|[]]. auto.
Qed.

Lemma chunking_tidy fuel sched :
  forall p max depth,
    preserves (moves (fun _ => True) nothing nothing)
              (_transcribe_with_ffmpeg_chunking W fuel sched p max depth).
Proof.
  induction fuel as [|fuel IH]; intros p max depth; simpl.
  - apply preserves_out_of_fuel.
  - intros s r s' Hrun. split.
    { destruct (chunking_moves W (S fuel) sched p max depth s r s' Hrun)
        as [(evs & E & _) _].
      exists evs. split; auto. apply Forall_forall. auto. }
    apply bind_inv in Hrun as (plan & s1 & Hsplit & Hrest).
    destruct plan as [cs|].
    + apply bind_inv in Hrest as (results & s2 & Hgather & Hrest).
      unfold bind in Hrest. rewrite rmtree_exact in Hrest by auto.
      unfold ret in Hrest. injection Hrest as _ <-.
      apply tidy_without_tree. apply keeps_disk_logged.
      apply dirty_then_tidy with (s2 := s1).
      * eapply split_audio_dirty; eauto.
      * assert (Hg : preserves (moves (fun _ => True) nothing nothing)
                       (gather (sched p)
                          (map (transcribe_chunk_with_limit W
                                  (_transcribe_with_ffmpeg_chunking W fuel sched)
                                  max depth) cs))).
        { apply moves_gather. rewrite Forall_forall. intros task Htask.
          apply in_map_iff in Htask as (c & <- & _).
          apply moves_task; auto. }
        exact (proj2 (Hg _ _ _ Hgather)).
    + unfold ret in Hrest. injection Hrest as _ <-.
      eapply split_audio_tidy; eauto.
Qed.

(** X3 (nothing left behind).  Suppose [shutil.rmtree] succeeds and no
    split ends in one of its two returns that skip the cleanup (last ffmpeg
    pass with a non-zero return code, or no segment listed).  Then every
    run of [transcribe_audio] returns, and every segment file and temporary
    directory on disk afterwards was on disk before: the run leaves nothing
    of its own, whether it succeeds or fails, and whether or not
    [os.remove] succeeds on the chunk files. *)
Theorem nothing_left_behind sched p s :
  exists r s',
    transcribe_audio W sched p s = Some (r, s') /\
    incl (files s') (files s) /\ incl (dirs s') (dirs s).
Proof.
  destruct (transcribe_audio_total W sched p s) as (r & s' & Hrun).
  exists r, s'. split; auto.
  assert (H : keeps_disk nothing nothing s s').
  { revert Hrun. unfold transcribe_audio.
    destruct (getsize W p) as [bytes|].
    - destruct (Qle_bool _ _).
      + intros Hrun.
        apply (moves_single W (fun _ => True) nothing nothing p) in Hrun; auto.
        apply Hrun.
      + intros Hrun. apply chunking_tidy in Hrun. apply Hrun.
    - unfold ret. intros [= _ <-]. split; auto. }
  destruct H as [Hf Hd]. split; intros x Hx.
  - destruct (Hf x Hx) as [|[]]; auto.
  - destruct (Hd x Hx) as [|[]]; auto.
Qed.

End Leftovers.

Lemma nothing_left_behind_witness :
  exists r s',
    MediaService.transcribe_audio three_chunks last_first talk empty_sys
    = Some (r, s') /\
    incl (files s') (files empty_sys) /\ incl (dirs s') (dirs empty_sys).
Proof.
  apply (nothing_left_behind three_chunks).
  - intros d. reflexivity.
  - intros p d. reflexivity.
Defined.

(** ** Chunk files are removed before the merge *)

Lemma take_out_perm {A} (l : list A) :
  forall k x rest, take_out k l = Some (x, rest) -> Permutation l (x :: rest).
Proof.
  induction l as [|y l IH]; intros k x rest H.
  { destruct k; discriminate H. }
  destruct k as [|k]; simpl in H.
  - injection H as <- <-. reflexivity.
  - destruct (take_out k l) as [[z t]|] eqn:E; [|discriminate].
    injection H as <- <-. rewrite perm_swap. constructor. eapply IH; eauto.
Qed.

(** When every task establishes its own condition and keeps the conditions of
    the others, all conditions hold once the tasks have run, in whatever
    order they ran. *)
Lemma run_pending_establishes {A} (Q : nat -> Sys -> Prop) choice n :
  forall j (pending : list (nat * M A)) s completed s',
    (forall i t, In (i, t) pending ->
                 forall s0 a s1, t s0 = Some (a, s1) -> Q i s1) ->
    (forall i t, In (i, t) pending ->
                 forall k s0 a s1, t s0 = Some (a, s1) -> Q k s0 -> Q k s1) ->
    run_pending n choice j pending s = Some (completed, s') ->
    length pending = n ->
    forall i t, In (i, t) pending -> Q i s'.
Proof.
  induction n as [|n IH]; intros j pending s completed s' Hest Hkeep Hrun Hlen.
  - destruct pending; [|discriminate]. intros i t [].
  - simpl in Hrun.
    destruct (take_out (choice j mod length pending) pending)
      as [[[i0 t0] rest]|] eqn:E.
    + pose proof (take_out_perm _ _ _ _ E) as Hperm.
      destruct (take_out_In _ _ _ _ E) as (Hin0 & Hsub & Hl).
      apply bind_inv in Hrun as (r & s1 & Ht0 & Hrun).
      apply bind_inv in Hrun as (done & s2 & Hrest & Hret).
      unfold ret in Hret. injection Hret as _ <-.
      intros i t Hin.
      apply (Permutation_in _ Hperm) in Hin. destruct Hin as [Heq|Hin].
      * injection Heq as <- <-.
        assert (Hkeeps : preserves (fun sa sb => Q i0 sa -> Q i0 sb)
                           (run_pending n choice (S j) rest)).
        { apply preserves_run_pending; [auto | auto |].
          rewrite Forall_forall. intros [i' t'] Hin' sa a sb Hrun'. simpl in Hrun'.
          exact (Hkeep i' t' (Hsub _ Hin') i0 sa a sb Hrun'). }
        apply (Hkeeps _ _ _ Hrest). eapply Hest; eauto.
      * eapply (IH (S j) rest s1 done s2); eauto. lia.
    + exfalso.
      assert (Hk : choice j mod length pending < length pending)
        by (apply Nat.mod_upper_bound; lia).
      destruct (take_out_some pending _ Hk) as (x & rest & E' & _). congruence.
Qed.

Lemma in_combine_seq_map {A B} (f : A -> B) (l : list A) :
  forall k i t,
    In (i, t) (combine (seq k (length l)) (map f l)) ->
    exists c, nth_error l (i - k) = Some c /\ t = f c /\ k <= i.
Proof.
  induction l as [|x l IH]; intros k i t H; simpl in H; [contradiction|].
  destruct H as [H|H].
  - injection H as <- <-. exists x. rewrite Nat.sub_diag. auto.
  - apply IH in H as (c & Hc & Ht & Hk). exists c.
    replace (i - k) with (S (i - S k)) by lia. simpl. repeat split; auto. lia.
Qed.

Lemma in_combine_seq_nth {A B} (f : A -> B) (l : list A) :
  forall k i c,
    nth_error l i = Some c ->
    In (k + i, f c) (combine (seq k (length l)) (map f l)).
Proof.
  induction l as [|x l IH]; intros k [|i] c Hi; simpl in *; try discriminate.
  - injection Hi as ->. rewrite Nat.add_0_r. now left.
  - right. rewrite <- Nat.add_succ_comm. now apply IH.
Qed.

Section ChunkFiles.

Import MediaService.

Variable W : World.
Hypothesis remove_succeeds : forall c, remove_ok W c = true.

Lemma remove_chunk_removes c s s' :
  remove_chunk W c s = Some (tt, s') -> ~ In c (files s').
Proof.
  unfold remove_chunk, bind, exists_file.
  destruct (mem c (files s)) eqn:E.
  - rewrite remove_succeeds. unfold emit, set_files. intros [= <-]. simpl.
    intros H. apply In_drop in H. tauto.
  - unfold ret. intros [= <-]. intros H. apply mem_In in H. congruence.
Qed.

Lemma task_removes recurse max depth c s a s' :
  transcribe_chunk_with_limit W recurse max depth c s = Some (a, s') ->
  ~ In c (files s').
Proof.
  unfold transcribe_chunk_with_limit. intros H.
  apply bind_inv in H as (r & s1 & _ & H).
  apply bind_inv in H as ([] & s2 & Hrm & H).
  unfold ret in H. injection H as _ <-.
  eapply remove_chunk_removes; eauto.
Qed.

Lemma task_keeps_siblings fuel sched max depth p k k' s a s' :
  chunk_task W fuel sched max depth (Segment p k') s = Some (a, s') ->
  ~ In (Segment p k) (files s) -> ~ In (Segment p k) (files s').
Proof.
  intros Hrun Hout Hin.
  assert (Hm : preserves (moves (fun _ => True)
                            (fun f => strictly_below (Segment p k') f = true)
                            (fun d => descends d (Segment p k') = true))
                 (chunk_task W fuel sched max depth (Segment p k'))).
  { apply moves_task; auto.
    eapply preserves_weaken; [|apply chunking_moves].
    intros sa sb. apply moves_weaken; auto. }
  destruct (Hm _ _ _ Hrun) as [_ [Hf _]].
  destruct (Hf _ Hin) as [H|H]; [contradiction|].
  rewrite sibling_not_below in H. discriminate.
Qed.

(** X4 (chunk files are deleted before the merge).  Suppose [os.remove]
    succeeds.  When an invocation has split its file into a plan and
    returns, none of the chunk files of that plan is on disk any more,
    whatever the scheduler, whatever became of each chunk (skipped, sent,
    split again, failed) and even when [shutil.rmtree] fails. *)
Theorem chunk_files_removed fuel sched p max depth s cs s1 r s' :
  split_audio W p max depth s = Some (Some cs, s1) ->
  _transcribe_with_ffmpeg_chunking W (S fuel) sched p max depth s = Some (r, s') ->
  forall c, In c cs -> ~ In c (files s').
Proof.
  intros Hsplit Hrun. simpl in Hrun.
  apply bind_inv in Hrun as (plan & s1' & Hsplit' & Hrun).
  rewrite Hsplit in Hsplit'. injection Hsplit' as <- <-.
  pose proof (split_audio_plan W p max depth _ _ _ Hsplit) as (_ & n & _ & Hcs).
  apply bind_inv in Hrun as (results & s2 & Hgather & Hrun).
  apply bind_inv in Hrun as ([] & s3 & Hrm & Hret).
  unfold ret in Hret. injection Hret as _ <-.
  assert (Hafter : forall c, In c cs -> ~ In c (files s2)).
  { unfold gather in Hgather.
    apply bind_inv in Hgather as (completed & s2' & Hpending & Hret).
    unfold ret in Hret. injection Hret as _ <-.
    set (taskf := transcribe_chunk_with_limit W
                    (_transcribe_with_ffmpeg_chunking W fuel sched) max depth) in *.
    rewrite length_map in Hpending.
    intros c Hc. apply In_nth_error in Hc as [i Hi].
    assert (Hlt : i < length cs) by (apply nth_error_Some; congruence).
    refine (run_pending_establishes
              (fun i st => forall c, nth_error cs i = Some c -> ~ In c (files st))
              (sched p) (length cs) 0
              (combine (seq 0 (length cs)) (map taskf cs)) s1 completed s2'
              _ _ Hpending _ i (taskf c) _ c Hi).
    - intros i0 t Hin s0 a sa Ht c0 Hc0.
      apply in_combine_seq_map in Hin as (c1 & Hc1 & -> & _).
      rewrite Nat.sub_0_r in Hc1. rewrite Hc1 in Hc0. injection Hc0 as <-.
      eapply task_removes; eauto.
    - intros i0 t Hin k s0 a sa Ht Hk c0 Hc0.
      apply in_combine_seq_map in Hin as (c1 & Hc1 & -> & _).
      specialize (Hk c0 Hc0).
      apply nth_error_In in Hc1, Hc0. rewrite Hcs in Hc1, Hc0.
      apply in_map_iff in Hc1 as (k1 & <- & _).
      apply in_map_iff in Hc0 as (k0 & <- & _).
      exact (task_keeps_siblings fuel sched max depth p k0 k1 s0 a sa Ht Hk).
    - rewrite length_combine, length_seq, length_map. lia.
    - apply (in_combine_seq_nth taskf cs 0 i c Hi). }
  intros c Hc Hin. apply (Hafter c Hc).
  pose proof (moves_rmtree W (fun _ => True) nothing nothing p I _ _ _ Hrm)
    as [_ [Hf _]].
  destruct (Hf c Hin) as [|[]]; auto.
Qed.

End ChunkFiles.

Lemma chunk_files_removed_witness :
  Forall (fun c =>
            ~ In c (files (after (MediaService._transcribe_with_ffmpeg_chunking
                                    rmtree_fails 4 last_first talk 10 0) empty_sys)))
         [Segment talk 0; Segment talk 1; Segment talk 2].
Proof.
  apply Forall_forall.
  apply (chunk_files_removed rmtree_fails (fun _ => eq_refl) 3 last_first talk 10 0
           empty_sys [Segment talk 0; Segment talk 1; Segment talk 2]
           (with_segments talk 3
              (logged (with_dir talk (logged empty_sys [EvProbe talk; EvMkdtemp talk]))
                 [EvSegment StreamCopy talk]))
           (Some (String.concat blank_line ["one"; "three"]%string))).
  - reflexivity.
  - reflexivity.
Defined.

(** With [shutil.rmtree] failing the directory itself stays. *)
Example rmtree_fails_keeps_dir :
  dirs (after (MediaService.transcribe_audio rmtree_fails last_first talk) empty_sys)
  = [talk] /\
  files (after (MediaService.transcribe_audio rmtree_fails last_first talk) empty_sys)
  = [].
Proof. split; reflexivity. Qed.

(** ** Plans whose chunks all fit *)

Section FittingPlans.

Import MediaService.

Variable W : World.

Lemma successful_texts_filtered (outcomes : list (option string)) :
  successful_texts (map (fun r => if truthy r then r else None) outcomes)
  = successful_texts outcomes.
Proof.
  unfold successful_texts.
  induction outcomes as [|[[|a t]|] l IH]; simpl; auto. now rewrite IH.
Qed.

Lemma fitting_task fuel sched max depth c bytes :
  getsize W c = Some bytes ->
  (small_chunk_mb <= mb bytes)%Q ->
  (mb bytes <= strict_threshold_mb)%Q ->
  yields (chunk_task W fuel sched max depth c)
         (Returned (let r := OpenRouterAPI.transcribe_audio (post W c) in
                    if truthy r then r else None)).
Proof.
  intros Hsize Hlo Hhi s. unfold chunk_task.
  rewrite (send_chunk W _ max depth c bytes s Hsize Hlo Hhi).
  set (r := OpenRouterAPI.transcribe_audio (post W c)).
  assert (Hsingle : yields (_transcribe_single_audio W c)
                           (if truthy r then r else None)).
  { intros s0. rewrite (single_audio_run W c bytes s0 Hsize). eexists. reflexivity. }
  pose proof (yields_chunk_task_via W _ _ c Hsingle) as H.
  replace (if truthy (if truthy r then r else None)
           then (if truthy r then r else None) else None)
    with (if truthy r then r else None) in H
    by (destruct (truthy r) eqn:E; [now rewrite E | reflexivity]).
  apply H.
Qed.

(** X5 (plans whose chunks all fit).  For a file above [MAX_FILE_SIZE_MB]
    whose split yields a plan in which every chunk is from 0.01 MB to
    9.5 MB, [transcribe_audio] returns, for every scheduler, what the
    endpoint answered for the chunks: the non-empty contents of the 200
    answers, in plan order, joined by a blank line, or [None] when there is
    none. *)
Theorem fitting_plan_transcript p bytes cs :
  getsize W p = Some bytes ->
  (inject_Z (MAX_FILE_SIZE_MB W) < mb bytes)%Q ->
  yields (split_audio W p (inject_Z (MAX_FILE_SIZE_MB W)) 0) (Some cs) ->
  (forall c, In c cs ->
             exists b, getsize W c = Some b /\
                       (small_chunk_mb <= mb b)%Q /\
                       (mb b <= strict_threshold_mb)%Q) ->
  forall sched,
    yields (transcribe_audio W sched p)
           (joined (map (fun c => OpenRouterAPI.transcribe_audio (post W c)) cs)).
Proof.
  intros Hsize Hbig Hsplit Hfit sched.
  assert (Hrun : transcribe_audio W sched p =
                 _transcribe_with_ffmpeg_chunking W (S MAX_RECURSION) sched p
                   (inject_Z (MAX_FILE_SIZE_MB W)) 0).
  { unfold transcribe_audio. rewrite Hsize.
    destruct (Qle_bool (mb bytes) (inject_Z (MAX_FILE_SIZE_MB W))) eqn:E; auto.
    apply Qle_bool_iff in E. exfalso. eapply Qlt_not_le; eauto. }
  rewrite Hrun.
  set (answer := fun c => OpenRouterAPI.transcribe_audio (post W c)).
  replace (joined (map answer cs))
    with (joined (map (fun r => if truthy r then r else None) (map answer cs)))
    by (unfold joined; now rewrite successful_texts_filtered).
  apply chunking_merges with (cs := cs); auto.
  clear Hsplit. induction cs as [|c l IH]; simpl; constructor.
  - destruct (Hfit c (or_introl eq_refl)) as (b & Hb & Hlo & Hhi).
    now apply fitting_task with (bytes := b).
  - apply IH. intros c' Hc'. apply Hfit. now right.
Qed.

(** X6 (no empty transcript).  Every run of [transcribe_audio] returns,
    and what it returns is [None] or a non-empty text: a 200 answer with an
    empty content is a failure on the direct path as it is for a chunk. *)
Theorem transcript_never_empty sched p s :
  exists r s',
    transcribe_audio W sched p s = Some (r, s') /\ r <> Some EmptyString.
Proof.
  destruct (transcribe_audio_total W sched p s) as (r & s' & Hrun).
  exists r, s'. split; auto.
  revert Hrun. unfold transcribe_audio.
  destruct (getsize W p) as [bytes|] eqn:Hsize.
  - destruct (Qle_bool _ _).
    + rewrite (single_audio_run W p bytes s Hsize). intros [= <- _].
      destruct (OpenRouterAPI.transcribe_audio (post W p)) as [[|a t]|];
        simpl; discriminate.
    + apply never_empty_success.
  - unfold ret. intros [= <- _]. discriminate.
Qed.

End FittingPlans.

Lemma fitting_plan_transcript_witness :
  yields (MediaService.transcribe_audio middle_fails last_first talk)
         (joined (map (fun c => OpenRouterAPI.transcribe_audio (post middle_fails c))
                      [Segment talk 0; Segment talk 1; Segment talk 2])).
Proof.
  refine (fitting_plan_transcript middle_fails talk 31457280%Z
            [Segment talk 0; Segment talk 1; Segment talk 2] _ _ _ _ last_first).
  - reflexivity.
  - reflexivity.
  - apply yields_of_value; [apply settled_split_audio | reflexivity].
  - intros c Hc. exists 8000000%Z.
    destruct Hc as [<-|[<-|[<-|[]]]]; repeat split; discriminate.
Defined.


(** ** The returns that skip the cleanup *)

Section SkippedCleanup.

Import MediaService.

Variable W : World.


End SkippedCleanup.


(** * Properties of the text helpers *)

Section Truncate.

Variable char : Type.
Variable dot : char.

Lemma length_py_prefix (k : Z) (l : list char) :
  (0 <= k <= Z.of_nat (length l))%Z -> Z.of_nat (length (py_prefix k l)) = k.
Proof.
  intros H. unfold py_prefix.
  destruct (Z.leb_spec 0 k); [|lia].
  rewrite length_firstn. lia.
Qed.

(** X8 ([truncate_with_ellipsis]).  The result is the text itself when it
    has at most [max_len] characters.  Otherwise, for [max_len >= 3], it is
    the first [max_len - 3] characters followed by three dots, [max_len]
    characters in all.  For [max_len < 3] a text that does not fit comes
    back longer than [max_len]: the result fits in [max_len] exactly when
    the text did or [max_len >= 3]. *)
Theorem truncate_with_ellipsis_length (text : list char) (max_len : Z) :
  ((Z.of_nat (length text) <= max_len)%Z ->
   Formatters.truncate_with_ellipsis char dot text max_len = text) /\
  ((max_len < Z.of_nat (length text))%Z -> (3 <= max_len)%Z ->
   Formatters.truncate_with_ellipsis char dot text max_len
   = firstn (Z.to_nat (max_len - 3)) text ++ [dot; dot; dot] /\
   Z.of_nat (length (Formatters.truncate_with_ellipsis char dot text max_len))
   = max_len) /\
  ((Z.of_nat (length (Formatters.truncate_with_ellipsis char dot text max_len))
    <= max_len)%Z <->
   (Z.of_nat (length text) <= max_len)%Z \/ (3 <= max_len)%Z).
Proof.
  unfold Formatters.truncate_with_ellipsis.
  destruct (Z.leb_spec (Z.of_nat (length text)) max_len) as [Hfit|Hlong].
  - repeat split; auto; lia.
  - split; [lia|]. split.
    + intros _ H3. unfold py_prefix.
      destruct (Z.leb_spec 0 (max_len - 3)); [|lia]. split; auto.
      rewrite length_app, length_firstn. simpl. lia.
    + rewrite length_app. simpl. split; [|intros [H|H]; [lia|]].
      * intros H. right. lia.
      * rewrite Nat2Z.inj_add, length_py_prefix; simpl; lia.
Qed.

End Truncate.

Section Fallback.

Variable char : Type.
Variable isspace : char -> bool.
Variables space dot : char.

Import AIService.

(** X9 (fallback metadata).  When the default title has from 1 to 35
    characters and the transcription is not empty, the title and the
    summary that [_generate_fallback_metadata] hands to [ContextMetadata]
    satisfy the length limits declared in the schema (1 to 35 and 1 to 80
    characters); the summary is the transcription itself when that has at
    most 77 characters. *)
Theorem fallback_within_limits (default_title transcription : list char) :
  within char title_max_length default_title ->
  transcription <> [] ->
  fields_within_limits char
    (_generate_fallback_metadata char isspace space dot default_title transcription) /\
  (length transcription <= 77 ->
   summary char
     (_generate_fallback_metadata char isspace space dot default_title transcription)
   = transcription).
Proof.
  intros [Hd1 Hd2] Hne. unfold fields_within_limits, within,
    _generate_fallback_metadata, title_max_length, summary_max_length in *.
  cbn [title summary].
  set (t := join char space (firstn 6 (split char isspace transcription))).
  split; [split|].
  - destruct (Nat.ltb_spec 35 (length t)) as [Hlong|Hshort].
    + destruct (firstn 32 t ++ [dot; dot; dot]) as [|c l] eqn:E.
      * apply (f_equal (@length char)) in E.
        rewrite length_app in E. simpl in E. lia.
      * rewrite <- E, length_app, length_firstn. cbn [length]. lia.
    + destruct t as [|c l]; cbn [length] in *; lia.
  - destruct (Nat.ltb_spec 77 (length transcription)) as [Hlong|Hshort].
    + rewrite length_app, length_firstn. cbn [length]. lia.
    + rewrite firstn_all2 by lia.
      destruct transcription; [contradiction | cbn [length] in *; lia].
  - intros Hshort.
    destruct (Nat.ltb_spec 77 (length transcription)); [lia|].
    now rewrite firstn_all2 by lia.
Qed.

End Fallback.

Lemma fallback_within_limits_witness :
  AIService.fields_within_limits ascii
    (AIService._generate_fallback_metadata ascii ascii_space " "%char "."%char
       (list_ascii_of_string "Video 05/11 21:17")
       (list_ascii_of_string "hello  world")) /\
  (length (list_ascii_of_string "hello  world") <= 77 ->
   AIService.summary ascii
     (AIService._generate_fallback_metadata ascii ascii_space " "%char "."%char
        (list_ascii_of_string "Video 05/11 21:17")
        (list_ascii_of_string "hello  world"))
   = list_ascii_of_string "hello  world").
Proof.
  apply (fallback_within_limits ascii ascii_space " "%char "."%char).
  - unfold AIService.within, AIService.title_max_length. simpl. lia.
  - discriminate.
Defined.

Example fallback_title_of_words :
  AIService.title ascii
    (AIService._generate_fallback_metadata ascii ascii_space " "%char "."%char
       (list_ascii_of_string "Video 05/11 21:17")
       (list_ascii_of_string "  one two   three four five six seven"))
  = list_ascii_of_string "one two three four five six".
Proof. reflexivity. Qed.

Section StorageUrls.

Import StorageUrl.

Local Open Scope string_scope.

Lemma prefix_spec p u : String.prefix p u = true <-> exists b, u = p ++ b.
Proof.
  revert u. induction p as [|c p IH]; intros [|d u]; simpl.
  - split; [intros _; exists ""; reflexivity | reflexivity].
  - split; [intros _; exists (String d u); reflexivity | reflexivity].
  - split; [discriminate | intros [b H]; discriminate].
  - destruct (Ascii.ascii_dec c d) as [->|Hne].
    + rewrite IH. split; intros [b H]; exists b; [now subst | now injection H].
    + split; [discriminate | intros [b H]; injection H; congruence].
Qed.

Lemma append_assoc (a b c : string) : (a ++ b) ++ c = a ++ b ++ c.
Proof. induction a as [|x a IH]; simpl; congruence. Qed.

Lemma contains_spec p u : contains p u = true <-> exists a b, u = a ++ p ++ b.
Proof.
  induction u as [|d u IH]; cbn [contains]; rewrite orb_true_iff.
  - rewrite prefix_spec. split.
    + intros [[b H]|H]; [|discriminate]. exists "", b. exact H.
    + intros (a & b & H). left. destruct a as [|x a]; [|discriminate].
      exists b. exact H.
  - rewrite prefix_spec, IH. split.
    + intros [[b H]|(a & b & H)].
      * exists "", b. exact H.
      * exists (String d a), b. simpl. now rewrite H.
    + intros (a & b & H). destruct a as [|x a].
      * left. exists b. exact H.
      * right. injection H as _ H. eauto.
Qed.

(** X10 ([_is_storage_url]).  A URL is taken for a storage URL exactly
    when one of the four patterns occurs somewhere in it, at any position:
    in the host, in the path or in the query. *)
Theorem is_storage_url_spec (url : string) :
  _is_storage_url url = true <->
  exists pattern a b,
    In pattern (supabase_pattern :: other_patterns) /\ url = a ++ pattern ++ b.
Proof.
  assert (Hany : (contains supabase_pattern url = true \/
                  existsb (fun pattern => contains pattern url) other_patterns = true)
                 <-> exists pattern a b,
                       In pattern (supabase_pattern :: other_patterns) /\
                       url = a ++ pattern ++ b).
  { rewrite existsb_exists. split.
    - intros [H|(pattern & Hin & H)]; apply contains_spec in H as (a & b & H).
      + exists supabase_pattern, a, b. split; auto. now left.
      + exists pattern, a, b. split; auto. now right.
    - intros (pattern & a & b & [<-|Hin] & H).
      + left. apply contains_spec. eauto.
      + right. exists pattern. split; auto. apply contains_spec. eauto. }
  rewrite <- Hany. unfold _is_storage_url.
  destruct url as [|c url].
  - split; [discriminate|]. intros [H|H]; [|simpl in H]; discriminate.
  - destruct (contains supabase_pattern (String c url)); [tauto|].
    destruct (existsb _ other_patterns); [tauto|].
    split; [discriminate | intros [H|H]; discriminate].
Qed.

Example query_string_counts_as_storage :
  _is_storage_url "https://example.org/clip.mp3?mirror=s3.amazonaws.com" = true.
Proof. reflexivity. Qed.

End StorageUrls.

(** * Each external call is issued once *)

Section SplitTrace.

Import MediaService.

Variable W : World.

Lemma cleanup_trace d s :
  In d (dirs s) ->
  exists s', cleanup_after_error W d s = Some (tt, s') /\
             trace s' = trace s ++ [EvRmtree d].
Proof.
  intros Hin. unfold cleanup_after_error, bind, exists_dir.
  apply mem_In in Hin. rewrite Hin. unfold rmtree, bind. simpl.
  destruct (rmtree_ok W d); eexists; split; reflexivity.
Qed.

(** The events of a split are one of six lists, and one of two when the
    split yields a plan. *)
Lemma split_audio_trace p max depth :
  emits (fun plan evs =>
           In evs (split_events p) /\
           (plan <> None -> In evs (plan_events p)))
        (split_audio W p max depth).
Proof.
  intros s plan s1.
  assert (Hnone : forall s2 evs,
             trace s2 = trace s ++ evs ->
             In evs [[]; [EvProbe p]] ->
             ret (@None (list path)) s2 = Some (plan, s1) ->
             exists evs, trace s1 = trace s ++ evs /\
                         In evs (split_events p) /\
                         (plan <> None -> In evs (plan_events p))).
  { intros s2 evs Ht Hin H. unfold ret in H. injection H as <- <-.
    exists evs. split; auto. split; [|congruence].
    simpl in *. tauto. }
  unfold split_audio.
  destruct (MAX_RECURSION <=? depth);
    [apply (Hnone s []); [now rewrite app_nil_r | now left]|].
  destruct (_check_ffmpeg W); simpl;
    [|apply (Hnone s []); [now rewrite app_nil_r | now left]].
  destruct (getsize W p) as [bytes|];
    [|apply (Hnone s []); [now rewrite app_nil_r | now left]].
  rewrite bind_emit.
  assert (Hprobe : ret (@None (list path)) (logged s [EvProbe p]) = Some (plan, s1) ->
                   exists evs, trace s1 = trace s ++ evs /\
                               In evs (split_events p) /\
                               (plan <> None -> In evs (plan_events p))).
  { apply (Hnone _ [EvProbe p]); [reflexivity | right; now left]. }
  destruct (ffprobe W p) as [rc|duration|]; try exact Hprobe.
  destruct (bytes =? 0)%Z; [exact Hprobe|].
  match goal with
  | |- context [Qlt_bool ?cd MIN_CHUNK_DURATION] => set (chunk_duration := cd)
  end.
  destruct (Qlt_bool chunk_duration MIN_CHUNK_DURATION); [exact Hprobe|].
  clear Hprobe Hnone.
  rewrite bind_emit, bind_set_dirs_add.
  set (s0 := with_dir p (logged (logged s [EvProbe p]) [EvMkdtemp p])).
  assert (Hin0 : In p (dirs s0)) by (simpl; apply In_add; now left).
  unfold bind at 1. rewrite run_segment_exact. unfold list_chunks.
  set (o1 := ffmpeg_segment W StreamCopy p chunk_duration).
  set (sa := with_segments p (written o1) (logged s0 [EvSegment StreamCopy p])).
  assert (Hta : trace sa = trace s ++ [EvProbe p; EvMkdtemp p; EvSegment StreamCopy p])
    by (simpl; now rewrite <- !app_assoc).
  assert (Hfinish : forall s2 evs,
             trace s2 = trace s ++ evs -> In p (dirs s2) ->
             In evs (plan_events p) ->
             ((cleanup_after_error W p ;;; ret (@None (list path))) s2
              = Some (plan, s1) ->
              exists evs', trace s1 = trace s ++ evs' /\
                           In evs' (split_events p) /\
                           (plan <> None -> In evs' (plan_events p))) /\
             (forall r, ret r s2 = Some (plan, s1) ->
                        exists evs', trace s1 = trace s ++ evs' /\
                                     In evs' (split_events p) /\
                                     (plan <> None -> In evs' (plan_events p)))).
  { intros s2 evs Ht Hin Hevs. split.
    - intros H. unfold bind in H.
      destruct (cleanup_trace p s2 Hin) as (s3 & E & Ht3). rewrite E in H.
      unfold ret in H. injection H as <- <-.
      exists (evs ++ [EvRmtree p]). rewrite Ht3, Ht, <- app_assoc.
      split; auto. split; [|congruence].
      destruct Hevs as [<-|[<-|[]]]; simpl; tauto.
    - intros r H. unfold ret in H. injection H as <- <-.
      exists evs. split; auto. split; auto.
      destruct Hevs as [<-|[<-|[]]]; simpl; tauto. }
  destruct (Hfinish sa _ Hta Hin0 (or_introl eq_refl)) as [Hca Hra].
  destruct o1 as [rc1 n1|n1]; cbn [exit_code written] in *; [|exact Hca].
  destruct (rc1 =? 0)%Z eqn:Hrc1; cbn [negb].
  - rewrite bind_ret, Hrc1. cbn [negb].
    destruct (map (Segment p) (seq 0 n1)); [apply Hra|].
    destruct (forallb _ _); [apply Hra | exact Hca].
  - unfold bind at 1. rewrite run_segment_exact.
    set (o2 := ffmpeg_segment W ReEncode p chunk_duration).
    set (sb := with_segments p (written o2) (logged sa [EvSegment ReEncode p])).
    assert (Htb : trace sb = trace s ++ [EvProbe p; EvMkdtemp p;
                                        EvSegment StreamCopy p;
                                        EvSegment ReEncode p])
      by (simpl; now rewrite <- !app_assoc).
    destruct (Hfinish sb _ Htb Hin0 (or_intror (or_introl eq_refl))) as [Hcb Hrb].
    destruct o2 as [rc2 n2|n2]; cbn [exit_code written] in *; [|exact Hcb].
    destruct (negb (rc2 =? 0)%Z); [apply Hrb|].
    destruct (map (Segment p) (seq 0 (Nat.max n1 n2))); [apply Hrb|].
    destruct (forallb _ _); [apply Hrb | exact Hcb].
Qed.

End SplitTrace.

Section EmitsRules.

Lemma emits_ret {A} (Phi : A -> list event -> Prop) a :
  Phi a [] -> emits Phi (ret a).
Proof.
  intros H s a' s' E. unfold ret in E. injection E as <- <-.
  exists []. now rewrite app_nil_r.
Qed.

Lemma emits_bind {A B} (Phi1 : A -> list event -> Prop)
    (Phi2 : A -> B -> list event -> Prop) (Phi : B -> list event -> Prop)
    (m : M A) (f : A -> M B) :
  emits Phi1 m -> (forall a, emits (Phi2 a) (f a)) ->
  (forall a e1 b e2, Phi1 a e1 -> Phi2 a b e2 -> Phi b (e1 ++ e2)) ->
  emits Phi (bind m f).
Proof.
  intros Hm Hf Hjoin s b s' H. apply bind_inv in H as (a & s1 & H1 & H2).
  destruct (Hm _ _ _ H1) as (e1 & E1 & P1).
  destruct (Hf a _ _ _ H2) as (e2 & E2 & P2).
  exists (e1 ++ e2). rewrite E2, E1, app_assoc. eauto.
Qed.

Lemma emits_weaken {A} (Phi Phi' : A -> list event -> Prop) (m : M A) :
  (forall a evs, Phi a evs -> Phi' a evs) -> emits Phi m -> emits Phi' m.
Proof.
  intros H Hm s a s' E. destruct (Hm _ _ _ E) as (evs & Ht & HP). eauto.
Qed.

(** The events of the tasks of one [gather], in the order the tasks ran:
    one list per task. *)
Lemma run_pending_parts {A} (G : nat -> list event -> Prop) choice n :
  forall j (pending : list (nat * M A)),
    length pending = n ->
    Forall (fun it => emits (fun _ evs => G (fst it) evs) (snd it)) pending ->
    emits (fun _ evs =>
             exists parts : list (nat * list event),
               Permutation (map fst parts) (map fst pending) /\
               evs = concat (map snd parts) /\
               Forall (fun pr => G (fst pr) (snd pr)) parts)
          (run_pending n choice j pending).
Proof.
  induction n as [|n IH]; intros j pending Hlen Hall.
  - destruct pending; [|discriminate]. simpl. apply emits_ret.
    exists []. simpl. auto.
  - simpl.
    assert (Hk : choice j mod length pending < length pending)
      by (apply Nat.mod_upper_bound; lia).
    destruct (take_out_some pending _ Hk) as ([i t] & rest & E & Hperm).
    rewrite E.
    assert (Hall' : Forall (fun it => emits (fun _ evs => G (fst it) evs) (snd it))
                      ((i, t) :: rest))
      by (rewrite Forall_forall in *; intros x Hx; apply Hall;
          eapply Permutation_in; [symmetry; exact Hperm | exact Hx]).
    inversion Hall' as [|? ? Ht Hrest]; subst. simpl in Ht.
    intros s completed s' Hrun.
    apply bind_inv in Hrun as (r & s1 & H1 & Hrun).
    apply bind_inv in Hrun as (done & s2 & H2 & Hret).
    unfold ret in Hret. injection Hret as _ <-.
    destruct (Ht _ _ _ H1) as (e1 & E1 & G1).
    destruct (IH (S j) rest) with (s := s1) (a := done) (s' := s2)
      as (e2 & E2 & parts & Hp & -> & Hparts); auto.
    { apply Permutation_length in Hperm. simpl in Hperm. lia. }
    exists (e1 ++ concat (map snd parts)). rewrite E2, E1, app_assoc.
    split; auto. exists ((i, e1) :: parts). simpl. split; [|split]; auto.
    rewrite (Permutation_map fst Hperm). simpl. now constructor.
Qed.

Lemma NoDup_concat_parts (region : nat -> event -> Prop)
    (parts : list (nat * list event)) :
  (forall i j ev, region i ev -> region j ev -> i = j) ->
  NoDup (map fst parts) ->
  Forall (fun pr => NoDup (snd pr) /\ Forall (region (fst pr)) (snd pr)) parts ->
  NoDup (concat (map snd parts)).
Proof.
  intros Hdisj. induction parts as [|[i evs] parts IH]; intros Hnd Hall; simpl.
  - constructor.
  - inversion Hnd as [|? ? Hi Hnd']; subst.
    inversion Hall as [|? ? [Hevs Hreg] Hall']; subst. simpl in *.
    apply NoDup_app; auto.
    intros ev Hin Hin'. apply in_concat in Hin' as (l & Hl & Hev).
    apply in_map_iff in Hl as ([k evs'] & <- & Hpr). simpl in Hev.
    rewrite Forall_forall in Hall', Hreg.
    destruct (Hall' _ Hpr) as [_ Hreg']. simpl in Hreg'.
    rewrite Forall_forall in Hreg'.
    assert (i = k) by (eapply Hdisj; eauto). subst k.
    apply Hi. apply in_map_iff. exists (i, evs'). auto.
Qed.

End EmitsRules.

Lemma strictly_below_self p : strictly_below p p = false.
Proof.
  destruct p as [a|p k]; simpl; auto.
  destruct (descends p (Segment p k)) eqn:E; auto.
  apply descends_level in E. simpl in E. lia.
Qed.

Lemma strictly_below_descends p q : strictly_below p q = true -> descends q p = true.
Proof.
  destruct q as [a|q k]; simpl; [discriminate|].
  intros H. rewrite H. apply orb_true_r.
Qed.

Lemma descends_segment_below p k q :
  descends q (Segment p k) = true -> strictly_below p q = true.
Proof.
  destruct q as [a|q j]; cbn [descends strictly_below].
  - rewrite orb_false_r. intros H.
    destruct (path_eqb_spec (Upload a) (Segment p k)); discriminate.
  - intros H. apply orb_true_iff in H as [H|H].
    + destruct (path_eqb_spec (Segment q j) (Segment p k)) as [E|]; [|discriminate].
      injection E as -> _. apply descends_refl.
    + eapply descends_trans; [exact H | apply descends_segment].
Qed.

(** A file lies at or below at most one segment of [p]. *)
Lemma descends_siblings p i j q :
  descends q (Segment p i) = true -> descends q (Segment p j) = true -> i = j.
Proof.
  induction q as [a|q IH k]; cbn [descends]; intros Hi Hj.
  - rewrite orb_false_r in Hi.
    destruct (path_eqb_spec (Upload a) (Segment p i)); discriminate.
  - apply orb_true_iff in Hi as [Hi|Hi]; apply orb_true_iff in Hj as [Hj|Hj].
    + destruct (path_eqb_spec (Segment q k) (Segment p i)) as [E1|]; [|discriminate].
      destruct (path_eqb_spec (Segment q k) (Segment p j)) as [E2|]; [|discriminate].
      congruence.
    + destruct (path_eqb_spec (Segment q k) (Segment p i)) as [E1|]; [|discriminate].
      injection E1 as -> _. apply descends_level in Hj. simpl in Hj. lia.
    + destruct (path_eqb_spec (Segment q k) (Segment p j)) as [E2|]; [|discriminate].
      injection E2 as -> _. apply descends_level in Hi. simpl in Hi. lia.
    + auto.
Qed.

Section Once.

Import MediaService.

Variable W : World.

Lemma emits_remove_chunk c :
  emits (fun _ evs => evs = [] \/ evs = [EvRemove c]) (remove_chunk W c).
Proof.
  intros s [] s'. unfold remove_chunk, bind, exists_file.
  destruct (mem c (files s)).
  - destruct (remove_ok W c); unfold emit, set_files; intros [= <-];
      exists [EvRemove c]; simpl; auto.
  - unfold ret. intros [= <-]. exists []. rewrite app_nil_r. auto.
Qed.

Lemma emits_single c :
  emits (fun _ evs => evs = [] \/ evs = [EvRemote c]) (_transcribe_single_audio W c).
Proof.
  intros s r s'. unfold _transcribe_single_audio.
  destruct (getsize W c) as [bytes|] eqn:Hsize.
  - intros H. pose proof (single_audio_run W c bytes s Hsize) as E.
    unfold _transcribe_single_audio in E. rewrite Hsize in E. rewrite E in H.
    injection H as _ <-. exists [EvRemote c]. auto.
  - unfold ret. intros [= _ <-]. exists []. rewrite app_nil_r. auto.
Qed.

Lemma once_task recurse max depth c :
  emits (fun _ => once_within c) (recurse c max (depth + 1)) ->
  emits (fun _ => once_below c) (transcribe_chunk_with_limit W recurse max depth c).
Proof.
  intros Hrec. unfold transcribe_chunk_with_limit.
  apply emits_bind with
    (Phi1 := fun (_ : option string) evs =>
               evs = [] \/ evs = [EvRemote c] \/ once_within c evs)
    (Phi2 := fun (_ : option string) (_ : gathered (option string)) evs =>
               evs = [] \/ evs = [EvRemove c]).
  - destruct (getsize W c) as [bytes|]; [|apply emits_ret; auto].
    destruct (Qlt_bool (mb bytes) small_chunk_mb); [apply emits_ret; auto|].
    apply emits_bind with
      (Phi1 := fun (_ : option string) evs =>
                 evs = [] \/ evs = [EvRemote c] \/ once_within c evs)
      (Phi2 := fun (_ _ : option string) evs => evs = []).
    + destruct (Qlt_bool strict_threshold_mb (mb bytes)).
      * eapply emits_weaken; [|exact Hrec]. auto.
      * eapply emits_weaken; [|apply emits_single]. intros _ evs [H|H]; auto.
    + intros text. destruct (truthy text); apply emits_ret; auto.
    + intros _ e1 _ e2 H ->. now rewrite app_nil_r.
  - intros r. apply emits_bind with
      (Phi1 := fun (_ : unit) evs => evs = [] \/ evs = [EvRemove c])
      (Phi2 := fun (_ : unit) (_ : gathered (option string)) evs => evs = []).
    + apply emits_remove_chunk.
    + intros _. apply emits_ret. auto.
    + intros _ e1 _ e2 H ->. now rewrite app_nil_r.
  - intros _ e1 _ e2 H1 H2.
    assert (Hbelow : once_within c e1 -> once_below c e1 /\ ~ In (EvRemove c) e1).
    { intros [Hnd Hall]. split; [split; auto|].
      - eapply Forall_impl; [|exact Hall].
        intros ev [[E _]|H];
          [rewrite E; apply descends_refl | now apply strictly_below_descends].
      - intros Hin. rewrite Forall_forall in Hall.
        destruct (Hall _ Hin) as [[_ H]|H]; simpl in H; [discriminate|].
        rewrite strictly_below_self in H. discriminate. }
    assert (Hrm : once_below c [EvRemove c]).
    { split; repeat constructor; auto. simpl. apply descends_refl. }
    assert (Hsend : once_below c [EvRemote c]).
    { split; repeat constructor; auto. simpl. apply descends_refl. }
    assert (Hboth : once_below c [EvRemote c; EvRemove c]).
    { split; repeat constructor; simpl; auto using descends_refl.
      intros [H|[]]. discriminate. }
    assert (Hnil : once_below c []) by (split; constructor).
    destruct H1 as [-> | [-> | H1]]; destruct H2 as [-> | ->];
      rewrite ?app_nil_r; simpl; auto.
    + apply Hbelow in H1. tauto.
    + apply Hbelow in H1 as [[Hnd Hall] Hout]. split.
      * apply NoDup_app; auto; [repeat constructor; auto|].
        intros ev Hin [<-|[]]. contradiction.
      * apply Forall_app. split; auto. repeat constructor. simpl.
        apply descends_refl.
Qed.

End Once.

Lemma emits_bind_returns {A B} (Q : A -> Prop) (Phi1 : A -> list event -> Prop)
    (Phi2 : A -> B -> list event -> Prop) (Phi : B -> list event -> Prop)
    (m : M A) (f : A -> M B) :
  emits Phi1 m -> returns Q m -> (forall a, Q a -> emits (Phi2 a) (f a)) ->
  (forall a e1 b e2, Phi1 a e1 -> Phi2 a b e2 -> Phi b (e1 ++ e2)) ->
  emits Phi (bind m f).
Proof.
  intros Hm HQ Hf Hjoin s b s' H. apply bind_inv in H as (a & s1 & H1 & H2).
  destruct (Hm _ _ _ H1) as (e1 & E1 & P1).
  destruct (Hf a (HQ _ _ _ H1) _ _ _ H2) as (e2 & E2 & P2).
  exists (e1 ++ e2). rewrite E2, E1, app_assoc. eauto.
Qed.

Lemma nth_error_map_seq {B} (f : nat -> B) n i c :
  nth_error (map f (seq 0 n)) i = Some c -> c = f i.
Proof.
  intros H. rewrite nth_error_map in H.
  destruct (nth_error (seq 0 n) i) as [k|] eqn:E; [|discriminate].
  injection H as <-. f_equal.
  assert (Hi : i < length (seq 0 n)) by (apply nth_error_Some; congruence).
  rewrite length_seq in Hi.
  rewrite (nth_error_nth' _ 0) in E by (now rewrite length_seq).
  rewrite seq_nth in E by assumption. simpl in E. congruence.
Qed.

Section OnceRuns.

Import MediaService.

Variable W : World.

Lemma emits_rmtree d : emits (fun _ evs => evs = [EvRmtree d]) (rmtree W d).
Proof.
  intros s [] s'. unfold rmtree, bind. simpl.
  destruct (rmtree_ok W d); intros [= <-]; exists [EvRmtree d]; auto.
Qed.

Lemma once_split_events p evs : In evs (split_events p) -> once_within p evs.
Proof.
  intros H. simpl in H.
  repeat (destruct H as [<-|H]; [|]); try contradiction;
    (split;
     [ repeat (constructor; [simpl; intuition discriminate|]); constructor
     | repeat (constructor; [left; simpl; auto|]); constructor ]).
Qed.

Lemma plan_events_no_rmtree p evs : In evs (plan_events p) -> ~ In (EvRmtree p) evs.
Proof.
  intros H. simpl in H.
  repeat (destruct H as [<-|H]; [simpl; intuition discriminate|]). contradiction.
Qed.

Lemma plan_events_split p evs : In evs (plan_events p) -> In evs (split_events p).
Proof. simpl. tauto. Qed.

(** A chunked run issues no event twice. *)
Lemma chunking_once fuel sched :
  forall p max depth,
    emits (fun _ => once_within p)
          (_transcribe_with_ffmpeg_chunking W fuel sched p max depth).
Proof.
  induction fuel as [|fuel IH]; intros p max depth; simpl.
  - intros s a s' H. discriminate.
  - apply emits_bind_returns with
      (Q := plan_of p depth)
      (Phi1 := fun plan evs => In evs (split_events p) /\
                               (plan <> None -> In evs (plan_events p)))
      (Phi2 := fun plan (_ : option string) evs =>
                 match plan with
                 | None => evs = []
                 | Some _ =>
                     exists tasks_evs,
                       evs = tasks_evs ++ [EvRmtree p] /\ NoDup tasks_evs /\
                       Forall (fun ev => strictly_below p (subject ev) = true)
                              tasks_evs
                 end).
    + apply split_audio_trace.
    + apply split_audio_plan.
    + intros [cs|] Hplan; [|apply emits_ret; auto].
      destruct Hplan as (_ & n & _ & ->).
      set (taskf := transcribe_chunk_with_limit W
                      (_transcribe_with_ffmpeg_chunking W fuel sched) max depth).
      apply emits_bind with
        (Phi1 := fun (_ : list (gathered (option string))) evs =>
                   NoDup evs /\
                   Forall (fun ev => strictly_below p (subject ev) = true) evs)
        (Phi2 := fun (_ : list (gathered (option string))) (_ : option string) evs =>
                   evs = [EvRmtree p]).
      * unfold gather.
        apply emits_bind with
          (Phi1 := fun (_ : list (nat * gathered (option string))) evs =>
                     NoDup evs /\
                     Forall (fun ev => strictly_below p (subject ev) = true) evs)
          (Phi2 := fun (_ : list (nat * gathered (option string)))
                       (_ : list (gathered (option string))) evs => evs = []).
        -- eapply emits_weaken;
             [|apply (run_pending_parts
                        (fun i => once_below (Segment p i)))].
           ++ intros _ evs (parts & Hperm & -> & Hparts).
              rewrite map_fst_combine in Hperm by (now rewrite length_seq).
              split.
              ** apply NoDup_concat_parts with
                   (region := fun i ev => descends (subject ev) (Segment p i) = true).
                 --- intros i j ev. apply descends_siblings.
                 --- eapply Permutation_NoDup; [symmetry; exact Hperm|].
                     apply seq_NoDup.
                 --- exact Hparts.
              ** apply Forall_concat. apply Forall_map.
                 eapply Forall_impl; [|exact Hparts].
                 intros [i evs] [_ Hall]. simpl in *.
                 eapply Forall_impl; [|exact Hall].
                 intros ev. apply descends_segment_below.
           ++ rewrite length_combine, length_seq. lia.
           ++ rewrite Forall_forall. intros [i t] Hin. simpl.
              rewrite length_map in Hin.
              apply in_combine_seq_map in Hin as (c & Hc & Ht & _). rewrite Ht.
              rewrite Nat.sub_0_r in Hc. apply nth_error_map_seq in Hc. subst c.
              apply once_task. apply IH.
        -- intros done. apply emits_ret. auto.
        -- intros _ e1 _ e2 H ->. now rewrite app_nil_r.
      * intros results. apply emits_bind with
          (Phi1 := fun (_ : unit) evs => evs = [EvRmtree p])
          (Phi2 := fun (_ : unit) (_ : option string) evs => evs = []).
        -- apply emits_rmtree.
        -- intros []. apply emits_ret. auto.
        -- intros _ e1 _ e2 -> ->. reflexivity.
      * intros _ e1 _ e2 [Hnd Hall] ->. exists e1. auto.
    + intros plan e1 r e2 [Hsplit Hplan] H2.
      destruct plan as [cs|].
      * destruct H2 as (tasks_evs & -> & Hnd & Hbelow).
        specialize (Hplan ltac:(discriminate)).
        pose proof (plan_events_no_rmtree p e1 Hplan) as Hnorm.
        destruct (once_split_events p e1 (plan_events_split p e1 Hplan))
          as [Hnd1 Hall1].
        assert (Hown : forall ev, In ev e1 -> subject ev = p).
        { intros ev Hin. simpl in Hplan.
          destruct Hplan as [<-|[<-|[]]]; simpl in Hin;
            repeat (destruct Hin as [<-|Hin]; [reflexivity|]); contradiction. }
        assert (Hout : forall ev, In ev tasks_evs -> subject ev <> p).
        { intros ev Hin E. rewrite Forall_forall in Hbelow.
          specialize (Hbelow _ Hin). rewrite E, strictly_below_self in Hbelow.
          discriminate. }
        split.
        -- assert (Htail : NoDup (tasks_evs ++ [EvRmtree p])).
           { apply NoDup_app; [assumption|repeat constructor; auto|].
             intros ev Hin [<-|[]]. now apply (Hout _ Hin). }
           apply NoDup_app; [assumption|assumption|].
           intros ev Hin Hin'. apply in_app_or in Hin' as [Hin'|[<-|[]]].
           ++ now apply (Hout _ Hin'), Hown.
           ++ contradiction.
        -- apply Forall_app. split; auto. apply Forall_app. split.
           ++ eapply Forall_impl; [|exact Hbelow]. intros ev H. now right.
           ++ apply Forall_cons; [left; simpl; auto|apply Forall_nil].
      * subst e2. rewrite app_nil_r. now apply once_split_events.
Qed.

(** X11 (no external call twice).  Every run of [transcribe_audio]
    returns, and the external calls it issues are pairwise different: no
    file is probed twice, given two temporary directories, passed twice to
    the same ffmpeg pass, sent twice to the endpoint or handed twice to
    [os.remove], and no directory is handed twice to [shutil.rmtree],
    whatever the scheduler. *)
Theorem no_call_twice sched p s :
  exists r s' evs,
    transcribe_audio W sched p s = Some (r, s') /\
    trace s' = trace s ++ evs /\ NoDup evs.
Proof.
  destruct (transcribe_audio_total W sched p s) as (r & s' & Hrun).
  exists r, s'.
  assert (H : exists evs, trace s' = trace s ++ evs /\ NoDup evs).
  { revert Hrun. unfold transcribe_audio.
    destruct (getsize W p) as [bytes|].
    - destruct (Qle_bool _ _).
      + intros Hrun. destruct (emits_single W p _ _ _ Hrun) as (evs & E & [Hn | Hn]);
          exists evs; subst evs; (split; [exact E|]); repeat constructor; auto.
      + intros Hrun.
        destruct (chunking_once _ sched p _ 0 _ _ _ Hrun) as (evs & E & [Hnd _]).
        eauto.
    - unfold ret. intros [= _ <-]. exists []. rewrite app_nil_r.
      split; auto. constructor. }
  destruct H as (evs & E & Hnd). exists evs. auto.
Qed.

End OnceRuns.

(** ** The semaphore never blocks for good *)

Section SemaphoreProgress.

Import Semaphore.






(** In [busy_state] the seventh task is waiting and is refused: five tasks
    are inside the block. *)
Example seventh_task_refused :
  at_pc busy_state 6 Waiting = true /\
  step (Acquire 6) busy_state = None /\
  holders busy_state = 5.
Proof. repeat split. Qed.

End SemaphoreProgress.
